(** * RofiManager: a shallow embedding of [src/main.go] and its verification.

    The program keeps three settings (enabled modes, enabled scripts, enabled
    theme) in an INI file and drives the external selector [rofi] in a loop
    of menus.  Everything outside the Go source is made explicit here:

    - Go strings are byte strings ([string], one [ascii] per byte);
    - the functions of the Go standard library that the source calls
      ([strings.Split], [strings.Join], [strings.TrimSpace],
      [strings.HasSuffix], [filepath.Base], [filepath.Join]) are modelled in
      [GoStrings] and [GoPath];
    - the INI library [gopkg.in/ini.v1] is an interface ([IniLibrary]): the
      in-memory file is a finite map, its text form is left abstract;
    - the order in which Go ranges over a map is an interface
      ([MapIteration]);
    - the file system is a finite map from paths to file contents, and the
      answers of the selector process are a script consumed call by call. *)

From Stdlib Require Import Ascii String List Bool Arith Lia.
From stdpp Require Import base option list gmap strings sorting.

Local Open Scope list_scope.
Import ListNotations.

Set Warnings "-clear-no-such-hyp".

(** ** Go's [strings] package, on byte strings *)

Module GoStrings.

Definition bytes (s : string) : list ascii := list_ascii_of_string s.
Definition str (l : list ascii) : string := string_of_list_ascii l.

(** [len(s)] *)
Definition len (s : string) : nat := String.length s.

(** [strings.Split(s, sep)] for a separator of one byte, the only kind the
    program uses: the pieces between the separators, [[""]] for the empty
    string. *)
Fixpoint Split (s : string) (sep : ascii) : list string :=
  match s with
  | EmptyString => [EmptyString]
  | String c s' =>
      if Ascii.eqb c sep then EmptyString :: Split s' sep
      else match Split s' sep with
           | w :: ws => String c w :: ws
           | [] => [String c EmptyString]
           end
  end.

(** [strings.Join(elems, sep)] *)
Fixpoint Join (elems : list string) (sep : string) : string :=
  match elems with
  | [] => EmptyString
  | [e] => e
  | e :: rest => e +:+ sep +:+ Join rest sep
  end.

(** [strings.HasSuffix(s, suffix)]:
    [len(s) >= len(suffix) && s[len(s)-len(suffix):] == suffix]. *)
Definition HasSuffix (s suffix : string) : bool :=
  (len suffix <=? len s)
  && String.eqb (substring (len s - len suffix) (len suffix) s) suffix.

(** The slice expression [s[n:]]; Go panics when [n > len(s)], which is
    [None] here. *)
Definition slice_from (n : nat) (s : string) : option string :=
  if n <=? len s then Some (substring n (len s - n) s) else None.

(** The UTF-8 encodings of the code points for which [unicode.IsSpace]
    holds: U+0009..U+000D, U+0020, U+0085, U+00A0, U+1680, U+2000..U+200A,
    U+2028, U+2029, U+202F, U+205F, U+3000. *)
Definition space_runes : list (list ascii) :=
  [ ["009"]; ["010"]; ["011"]; ["012"]; ["013"]; ["032"];
    ["194"; "133"]; ["194"; "160"];
    ["225"; "154"; "128"];
    ["226"; "128"; "128"]; ["226"; "128"; "129"]; ["226"; "128"; "130"];
    ["226"; "128"; "131"]; ["226"; "128"; "132"]; ["226"; "128"; "133"];
    ["226"; "128"; "134"]; ["226"; "128"; "135"]; ["226"; "128"; "136"];
    ["226"; "128"; "137"]; ["226"; "128"; "138"];
    ["226"; "128"; "168"]; ["226"; "128"; "169"]; ["226"; "128"; "175"];
    ["226"; "129"; "159"];
    ["227"; "128"; "128"] ]%char.

Fixpoint is_prefix (p l : list ascii) : bool :=
  match p, l with
  | [], _ => true
  | a :: p', b :: l' => Ascii.eqb a b && is_prefix p' l'
  | _ :: _, [] => false
  end.

(** One step of trimming: drop the first of the byte sequences [rs] that
    the input starts with. *)
Definition strip_rune (rs : list (list ascii)) (l : list ascii)
  : option (list ascii) :=
  match List.find (fun r => is_prefix r l) rs with
  | Some r => Some (drop (length r) l)
  | None => None
  end.

Fixpoint trim_fuel (rs : list (list ascii)) (n : nat) (l : list ascii)
  : list ascii :=
  match n with
  | O => l
  | S n' => match strip_rune rs l with
            | Some l' => trim_fuel rs n' l'
            | None => l
            end
  end.

(** [strings.TrimLeftFunc(s, unicode.IsSpace)] on bytes. *)
Definition TrimLeftSpace (l : list ascii) : list ascii :=
  trim_fuel space_runes (length l) l.

(** [strings.TrimRightFunc(s, unicode.IsSpace)] on bytes: the last rune of
    a string is a space exactly when the string ends with the encoding of
    one, so trimming on the right is trimming the reversed input by the
    reversed encodings. *)
Definition TrimRightSpace (l : list ascii) : list ascii :=
  rev (trim_fuel (map (@rev ascii) space_runes) (length l) (rev l)).

(** [strings.TrimSpace(s)] *)
Definition TrimSpace (s : string) : string :=
  str (TrimRightSpace (TrimLeftSpace (bytes s))).

Fixpoint drop_while {A} (p : A → bool) (l : list A) : list A :=
  match l with
  | [] => []
  | x :: l' => if p x then drop_while p l' else l
  end.

Fixpoint take_while {A} (p : A → bool) (l : list A) : list A :=
  match l with
  | [] => []
  | x :: l' => if p x then x :: take_while p l' else []
  end.

(** A byte not occurring in a string. *)
Definition lacks (c : ascii) (s : string) : Prop := c ∉ bytes s.

Definition lacksb (c : ascii) (s : string) : bool :=
  forallb (fun b => negb (Ascii.eqb b c)) (bytes s).

End GoStrings.

Import GoStrings.

(** ** Go's [path/filepath] package on Unix *)

Module GoPath.

Definition slash : ascii := "/"%char.

Definition is_slash (c : ascii) : bool := Ascii.eqb c slash.

(** [filepath.Base(path)]: the last element of the path, after removing
    trailing slashes; ["."] for the empty path and ["/"] for a path made of
    slashes only. *)
Definition Base (path : string) : string :=
  if String.eqb path "" then "."
  else
    let stripped := drop_while is_slash (rev (bytes path)) in
    let elem := take_while (fun c => negb (is_slash c)) stripped in
    if decide (elem = []) then "/" else str (rev elem).

(** The loop of [filepath.Clean] over the elements of a path.  [out] is the
    stack of the elements kept so far, the last one first.  An empty element
    and ["."] are skipped; [".."] removes the last kept element, is dropped
    at the root of a rooted path, and is kept at the start of a relative
    one. *)
Fixpoint clean_elems (rooted : bool) (elems out : list string) : list string :=
  match elems with
  | [] => out
  | e :: rest =>
      if String.eqb e "" || String.eqb e "." then clean_elems rooted rest out
      else if String.eqb e ".." then
        match out with
        | top :: out' =>
            if String.eqb top ".." then clean_elems rooted rest (e :: out)
            else clean_elems rooted rest out'
        | [] =>
            if rooted then clean_elems rooted rest []
            else clean_elems rooted rest [e]
        end
      else clean_elems rooted rest (e :: out)
  end.

(** [filepath.Clean(path)] *)
Definition Clean (path : string) : string :=
  if String.eqb path "" then "."
  else
    let rooted := String.prefix "/" path in
    let kept := rev (clean_elems rooted (Split path slash) []) in
    if rooted then "/" +:+ Join kept "/"
    else if decide (kept = []) then "." else Join kept "/".

(** [filepath.Join(elem...)]: the elements from the first non-empty one on,
    joined by slashes and cleaned; the empty string when all are empty. *)
Definition FJoin (elem : list string) : string :=
  match drop_while (fun e => String.eqb e "") elem with
  | [] => ""
  | rest => Clean (Join rest "/")
  end.

End GoPath.

Import GoPath.

(** ** The INI library [gopkg.in/ini.v1] *)

(** An [*ini.File] in memory: the value of each key of each section.  The
    program reads a value with [String()] and sets it with [SetValue], and
    what is read is what was set or loaded (the library's expansion of
    [%(name)s] references to other keys is left out: none of the three
    keys of the program has another key next to it). *)
Abbreviation IniFile := (gmap (string * string) string).

(** [ini.Empty()] *)
Definition ini_Empty : IniFile := ∅.

(** [cfg.Section(sec).Key(key)]: the library creates a section and a key
    that do not exist yet, the key with an empty value. *)
Definition ini_Key (cfg : IniFile) (sec key : string) : IniFile :=
  match cfg !! (sec, key) with
  | Some _ => cfg
  | None => <[(sec, key) := ""]> cfg
  end.

(** [cfg.Section(sec).Key(key).String()], the value read. *)
Definition ini_String (cfg : IniFile) (sec key : string) : string :=
  default "" (cfg !! (sec, key)).

(** [cfg.Section(sec).Key(key).SetValue(v)] *)
Definition ini_SetValue (cfg : IniFile) (sec key v : string) : IniFile :=
  <[(sec, key) := v]> cfg.

(** The text form of an INI file is the library's business: what [SaveTo]
    writes for a file in memory, and what [Load] makes of the bytes of a
    file ([None] when it reports an error). *)
Class IniLibrary := {
  ini_render : IniFile → string;
  ini_parse : string → option IniFile
}.

(** Go ranges over a map in an order of its own choosing, which may change
    from one [range] statement to the next: [range_keys n s] is the order of
    the [n]-th such statement of a run over a map with the keys [s]. *)
Class MapIteration := {
  range_keys : nat → gset string → list string;
  range_keys_perm : ∀ n s, range_keys n s ≡ₚ elements s
}.

(** ** The file system *)

(** Regular files by path, directories, the paths at which the system
    refuses every call ([denied]) and those at which it refuses to create
    or write ([readonly]), for whatever reason: permissions, a missing
    parent directory, a full disk.  Paths are looked up as they are
    written. *)
Record World := {
  files : gmap string string;
  dirs : gset string;
  denied : gset string;
  readonly : gset string
}.

Inductive StatResult := StatOk | StatNotExist | StatError.

(** [os.Stat(path)]: [err == nil] is [StatOk], [os.IsNotExist(err)] is
    [StatNotExist]. *)
Definition os_Stat (w : World) (path : string) : StatResult :=
  if decide (path ∈ denied w) then StatError
  else if decide (is_Some (files w !! path) ∨ path ∈ dirs w) then StatOk
  else StatNotExist.

(** [ioutil.ReadFile(path)]: the bytes, or the text of the error. *)
Definition ReadFile (w : World) (path : string) : string + string :=
  if decide (path ∈ denied w) then inr ("open " +:+ path +:+ ": permission denied")
  else match files w !! path with
       | Some data => inl data
       | None =>
           if decide (path ∈ dirs w) then inr ("read " +:+ path +:+ ": is a directory")
           else inr ("open " +:+ path +:+ ": no such file or directory")
       end.

(** [ioutil.WriteFile(path, data, perm)]: the new file system, and the text
    of the error if there is one.  Permission bits are not part of the
    model. *)
Definition WriteFile (w : World) (path data : string) : World * option string :=
  if decide (path ∈ denied w ∨ path ∈ readonly w) then
    (w, Some ("open " +:+ path +:+ ": permission denied"))
  else if decide (path ∈ dirs w) then
    (w, Some ("open " +:+ path +:+ ": is a directory"))
  else ({| files := <[path := data]> (files w); dirs := dirs w;
           denied := denied w; readonly := readonly w |}, None).

(** [os.MkdirAll(path, perm)], its error dropped as the program drops it. *)
Definition MkdirAll (w : World) (path : string) : World :=
  if decide (path ∈ denied w ∨ path ∈ readonly w) then w
  else if decide (is_Some (files w !! path)) then w
  else {| files := files w; dirs := {[path]} ∪ dirs w;
          denied := denied w; readonly := readonly w |}.

(** The name of [path] inside the directory [dir], when it lies directly
    in it. *)
Definition entry_name (dir path : string) : option string :=
  let pre := dir +:+ "/" in
  if String.prefix pre path then
    let name := substring (len pre) (len path - len pre) path in
    if negb (String.eqb name "") && lacksb slash name then Some name else None
  else None.

(** [ioutil.ReadDir(dir)] reduced to the names of the entries, which it
    returns sorted; no entries when the directory cannot be read. *)
Definition ReadDir (w : World) (dir : string) : list string :=
  if decide (dir ∈ denied w) then []
  else if decide (dir ∈ dirs w) then
    merge_sort String.le
      (omap (entry_name dir) ((map_to_list (files w)).*1 ++ elements (dirs w)))
  else [].

(** ** The program state *)

(** The struct [RofiManager]; [config] is the file the pointer refers to. *)
Record RofiManager := {
  baseDir : string;
  themesDir : string;
  scriptsDir : string;
  configPath : string;
  config : IniFile;
  allModes : list string
}.

(** One run of the [rofi] binary: its arguments and what was written to its
    standard input. *)
Record RofiCall := {
  rofi_args : list string;
  rofi_stdin : string
}.

(** The manager together with what surrounds it: the file system, the
    standard outputs of the [rofi] processes still to come ([answers], one
    per [-dmenu] run; a run after the last one prints nothing, as a
    dismissed menu does), the runs made so far ([calls], oldest first) and
    the number of [range] statements over maps executed so far. *)
Record State := {
  rm : RofiManager;
  fs : World;
  answers : list string;
  calls : list RofiCall;
  ranges : nat
}.

Definition with_config (cfg : IniFile) (st : State) : State :=
  {| rm := {| baseDir := baseDir (rm st); themesDir := themesDir (rm st);
              scriptsDir := scriptsDir (rm st); configPath := configPath (rm st);
              config := cfg; allModes := allModes (rm st) |};
     fs := fs st; answers := answers st; calls := calls st; ranges := ranges st |}.

Definition with_fs (w : World) (st : State) : State :=
  {| rm := rm st; fs := w; answers := answers st; calls := calls st;
     ranges := ranges st |}.

(** ** Computations: state, panics, [os.Exit], fuel for the loops *)

Inductive Res (A : Type) :=
| Done (a : A) (st : State)
| Panic (st : State)
| Exited (st : State)
| OutOfFuel.
Arguments Done {A} a st.
Arguments Panic {A} st.
Arguments Exited {A} st.
Arguments OutOfFuel {A}.

Definition M (A : Type) : Type := State → Res A.

Definition ret {A} (a : A) : M A := fun st => Done a st.

Definition bind {A B} (m : M A) (k : A → M B) : M B :=
  fun st =>
    match m st with
    | Done a st' => k a st'
    | Panic st' => Panic st'
    | Exited st' => Exited st'
    | OutOfFuel => OutOfFuel
    end.

#[export] Instance M_ret : MRet M := @ret.
#[export] Instance M_bind : MBind M := fun A B k m => bind m k.

Definition get : M State := fun st => Done st st.
Definition modify (f : State → State) : M unit := fun st => Done tt (f st).
Definition panic {A} : M A := fun st => Panic st.
Definition os_Exit {A} : M A := fun st => Exited st.
Definition out_of_fuel {A} : M A := fun _ => OutOfFuel.

(** The newline of Go's ["\n"]. *)
Definition nl : string := String "010"%char "".

Section Program.

Context `{IniLibrary} `{MapIteration}.

(** [ini.Load(path)]: an error when the file cannot be read or parsed. *)
Definition ini_Load (w : World) (path : string) : option IniFile :=
  match ReadFile w path with
  | inl data => ini_parse data
  | inr _ => None
  end.

(** [cfg.SaveTo(path)], its error dropped as the program drops it. *)
Definition ini_SaveTo (cfg : IniFile) (path : string) (w : World) : World :=
  fst (WriteFile w path (ini_render cfg)).

(** The file both [ensureConfigDirs] and [loadConfig] build. *)
Definition default_config : IniFile :=
  ini_SetValue
    (ini_SetValue
       (ini_SetValue ini_Empty "modes" "enabled" "run,drun,window")
       "scripts" "enabled" "")
    "theme" "enabled" "".

Definition ensureConfigDirs : M unit :=
  st ← get;
  modify (with_fs (MkdirAll (fs st) (themesDir (rm st))));;
  st ← get;
  modify (with_fs (MkdirAll (fs st) (scriptsDir (rm st))));;
  st ← get;
  match os_Stat (fs st) (configPath (rm st)) with
  | StatNotExist =>
      modify (with_fs (ini_SaveTo default_config (configPath (rm st)) (fs st)))
  | _ => ret tt
  end.

Definition loadConfig : M unit :=
  st ← get;
  match ini_Load (fs st) (configPath (rm st)) with
  | Some cfg => modify (with_config cfg)
  | None =>
      modify (with_fs (ini_SaveTo default_config (configPath (rm st)) (fs st)));;
      modify (with_config default_config)
  end.

Definition saveConfig : M unit :=
  st ← get;
  modify (with_fs (ini_SaveTo (config (rm st)) (configPath (rm st)) (fs st))).

(** [rm.config.Section(sec).Key(key).String()] *)
Definition key_String (sec key : string) : M string :=
  st ← get;
  modify (with_config (ini_Key (config (rm st)) sec key));;
  ret (ini_String (config (rm st)) sec key).

(** [rm.config.Section(sec).Key(key).SetValue(v)] *)
Definition key_SetValue (sec key v : string) : M unit :=
  st ← get;
  modify (with_config (ini_SetValue (config (rm st)) sec key v)).

(** The loop shared by [getEnabledModes] and [getEnabledScripts]: the
    pieces of [val] between commas, trimmed, the empty ones dropped. *)
Definition enabled_names (val : string) : list string :=
  filter (fun m => m ≠ "") (TrimSpace <$> Split val ",").

Definition getEnabledModes : M (list string) :=
  val ← key_String "modes" "enabled";
  ret (enabled_names val).

Definition setEnabledModes (modes : list string) : M unit :=
  key_SetValue "modes" "enabled" (Join modes ",");;
  saveConfig.

Definition getEnabledScripts : M (list string) :=
  val ← key_String "scripts" "enabled";
  ret (enabled_names val).

Definition setEnabledScripts (scripts : list string) : M unit :=
  key_SetValue "scripts" "enabled" (Join scripts ",");;
  saveConfig.

Definition getEnabledTheme : M string :=
  key_String "theme" "enabled".

Definition setEnabledTheme (theme : string) : M unit :=
  key_SetValue "theme" "enabled" theme;;
  saveConfig.

Definition loadScripts : M (list string) :=
  st ← get;
  ret (filter (fun name => HasSuffix name ".sh" = true)
         (ReadDir (fs st) (scriptsDir (rm st)))).

Definition loadThemes : M (list string) :=
  st ← get;
  ret (filter (fun name => HasSuffix name ".rasi" = true)
         (ReadDir (fs st) (themesDir (rm st)))).

(** The arguments [-theme themePath], present when the theme is named and
    its file is found. *)
Definition theme_args (st : State) (theme : string) : list string :=
  if decide (theme ≠ "") then
    let themePath := FJoin [themesDir (rm st); theme] in
    match os_Stat (fs st) themePath with
    | StatOk => ["-theme"; themePath]
    | _ => []
    end
  else [].

(** The standard output of the next [rofi -dmenu] run. *)
Definition next_answer : M string :=
  fun st =>
    Done (hd "" (answers st))
         {| rm := rm st; fs := fs st; answers := tl (answers st);
            calls := calls st; ranges := ranges st |}.

Definition record_call (c : RofiCall) : M unit :=
  modify (fun st => {| rm := rm st; fs := fs st; answers := answers st;
                       calls := calls st ++ [c]; ranges := ranges st |}).

Definition rofiMenu (prompt : string) (options : list string) (theme : string)
  : M string :=
  st ← get;
  let rofiCmd := ["-dmenu"; "-p"; prompt] ++ theme_args st theme in
  record_call {| rofi_args := rofiCmd; rofi_stdin := Join options nl |};;
  out ← next_answer;
  ret (TrimSpace out).

Definition showInfo (message : string) : M unit :=
  theme ← getEnabledTheme;
  rofiMenu message ["OK"] theme;;
  ret tt.

(** The body shared by [addScript] and [addTheme], which differ in the
    prompt, the suffix, the message and the directory (and in the permission
    bits of the copy, 0755 and 0644, which the model leaves out). *)
Definition add_asset (prompt suffix message : string)
    (dir : RofiManager → string) : M unit :=
  theme ← getEnabledTheme;
  path ← rofiMenu prompt [""] theme;
  if decide (path = "") then ret tt
  else
    st ← get;
    match os_Stat (fs st) path with
    | StatNotExist => showInfo "File does not exist."
    | _ =>
        if negb (HasSuffix path suffix) then showInfo message
        else
          let dest := FJoin [dir (rm st); Base path] in
          proceed ←
            match os_Stat (fs st) dest with
            | StatOk =>
                theme ← getEnabledTheme;
                overwrite ← rofiMenu ("Overwrite " +:+ Base path +:+ "?")
                                      ["No"; "Yes"] theme;
                ret (bool_decide (overwrite = "Yes"))
            | _ => ret true
            end;
          if proceed : bool then
            st ← get;
            match ReadFile (fs st) path with
            | inr err => showInfo ("Error copying file:" +:+ nl +:+ err)
            | inl input =>
                let (w, werr) := WriteFile (fs st) dest input in
                modify (with_fs w);;
                match werr with
                | Some err => showInfo ("Error copying file:" +:+ nl +:+ err)
                | None => ret tt
                end
            end
          else ret tt
    end.

Definition addScript : M unit :=
  add_asset "Path to script (.sh)" ".sh" "File must end with .sh" scriptsDir.

Definition addTheme : M unit :=
  add_asset "Path to theme (.rasi)" ".rasi" "File must end with .rasi" themesDir.

(** [fmt.Sprintf("%s %s", mark, name)] with the mark of a checkbox. *)
Definition checkbox (checked : bool) (name : string) : string :=
  (if checked then "[x]" else "[ ]") +:+ " " +:+ name.

(** The options of a toggle menu over [names] for the set [enabledSet]. *)
Definition toggle_options (names : list string) (enabledSet : gset string)
  : list string :=
  (fun name => checkbox (bool_decide (name ∈ enabledSet)) name) <$> names.

(** [if enabledSet[name] { delete(enabledSet, name) } else { enabledSet[name] = true }] *)
Definition flip (name : string) (enabledSet : gset string) : gset string :=
  if decide (name ∈ enabledSet) then enabledSet ∖ {[name]}
  else enabledSet ∪ {[name]}.

(** [for s := range enabledSet { newEnabled = append(newEnabled, s) }] *)
Definition range_set (enabledSet : gset string) : M (list string) :=
  fun st =>
    Done (range_keys (ranges st) enabledSet)
         {| rm := rm st; fs := fs st; answers := answers st;
            calls := calls st; ranges := S (ranges st) |}.

(** [choice[4:]], a panic when the choice is shorter. *)
Definition after_mark (choice : string) : M string :=
  match slice_from 4 choice with
  | Some rest => ret rest
  | None => panic
  end.

(** One iteration of the loop of a toggle workflow: [None] when the loop
    is left, the new set otherwise. *)
Definition toggle_body (prompt : string) (names : list string)
    (set_enabled : list string → M unit) (enabledSet : gset string)
  : M (option (gset string)) :=
  theme ← getEnabledTheme;
  choice ← rofiMenu prompt (toggle_options names enabledSet) theme;
  if decide (choice = "") then ret None
  else
    rest ← after_mark choice;
    let name := TrimSpace rest in
    let enabledSet' := flip name enabledSet in
    newEnabled ← range_set enabledSet';
    set_enabled newEnabled;;
    ret (Some enabledSet').

Fixpoint toggle_loop (fuel : nat) (body : gset string → M (option (gset string)))
    (enabledSet : gset string) : M unit :=
  match fuel with
  | O => out_of_fuel
  | S fuel' =>
      r ← body enabledSet;
      match r with
      | None => ret tt
      | Some enabledSet' => toggle_loop fuel' body enabledSet'
      end
  end.

(** Every iteration but the last consumes an answer, so one more than the
    number of answers left is fuel enough. *)
Definition enough_fuel : M nat :=
  st ← get; ret (S (length (answers st))).

Definition enableScript_body (scripts : list string)
  : gset string → M (option (gset string)) :=
  toggle_body "Toggle scripts (Enter to finish)" scripts setEnabledScripts.

Definition enableScript : M unit :=
  scripts ← loadScripts;
  if decide (length scripts = 0) then showInfo "No scripts found."
  else
    enabled ← getEnabledScripts;
    fuel ← enough_fuel;
    toggle_loop fuel (enableScript_body scripts) (list_to_set enabled).

(** The options of the theme menu. *)
Definition theme_options (themes : list string) (enabledTheme : string)
  : list string :=
  (fun theme => checkbox (bool_decide (theme = enabledTheme)) theme) <$> themes.

(** One iteration of the loop of [enableTheme]: [None] when the loop is
    left, the new value of [enabledTheme] otherwise. *)
Definition enableTheme_body (themes : list string) (enabledTheme : string)
  : M (option string) :=
  choice ← rofiMenu "Select theme (Enter to escape)"
                     (theme_options themes enabledTheme) enabledTheme;
  if decide (choice = "") then ret None
  else
    rest ← after_mark choice;
    let theme := TrimSpace rest in
    let enabledTheme' := if decide (theme = enabledTheme) then "" else theme in
    setEnabledTheme enabledTheme';;
    enabledTheme'' ← getEnabledTheme;
    ret (Some enabledTheme'').

Fixpoint enableTheme_loop (fuel : nat) (themes : list string)
    (enabledTheme : string) : M unit :=
  match fuel with
  | O => out_of_fuel
  | S fuel' =>
      r ← enableTheme_body themes enabledTheme;
      match r with
      | None => ret tt
      | Some enabledTheme' => enableTheme_loop fuel' themes enabledTheme'
      end
  end.

Definition enableTheme : M unit :=
  themes ← loadThemes;
  if decide (length themes = 0) then showInfo "No themes found."
  else
    enabledTheme ← getEnabledTheme;
    fuel ← enough_fuel;
    enableTheme_loop fuel themes enabledTheme.

Definition toggleModes_body (modes : list string)
  : gset string → M (option (gset string)) :=
  toggle_body "Toggle modes (Enter to finish)" modes setEnabledModes.

Definition toggleModes : M unit :=
  enabled ← getEnabledModes;
  st ← get;
  fuel ← enough_fuel;
  toggle_loop fuel (toggleModes_body (allModes (rm st))) (list_to_set enabled).

(** [exec.Command("rofi", "-show", mode, ...).Run()] followed by
    [os.Exit(0)]. *)
Definition launch (mode : string) : M unit :=
  theme ← getEnabledTheme;
  st ← get;
  record_call {| rofi_args := ["-show"; mode] ++ theme_args st theme;
                 rofi_stdin := "" |};;
  os_Exit.

Definition selectMode : M unit :=
  enabledModes ← getEnabledModes;
  if decide (length enabledModes = 0) then showInfo "No modes enabled."
  else
    theme ← getEnabledTheme;
    choice ← rofiMenu "Select mode" enabledModes theme;
    match List.find (fun mode => String.eqb choice mode) enabledModes with
    | Some mode => launch mode
    | None => ret tt
    end.

Definition mainOptions : list string :=
  ["Select Mode"; "Enable/Disable Modes"; "Enable Script"; "Enable Theme";
   "Add Script"; "Add Theme"; "Exit"].

Fixpoint run_loop (fuel : nat) : M unit :=
  match fuel with
  | O => out_of_fuel
  | S fuel' =>
      theme ← getEnabledTheme;
      choice ← rofiMenu "Rofi Manager" mainOptions theme;
      if String.eqb choice "Select Mode" then selectMode;; run_loop fuel'
      else if String.eqb choice "Enable/Disable Modes" then toggleModes;; run_loop fuel'
      else if String.eqb choice "Enable Script" then enableScript;; run_loop fuel'
      else if String.eqb choice "Enable Theme" then enableTheme;; run_loop fuel'
      else if String.eqb choice "Add Script" then addScript;; run_loop fuel'
      else if String.eqb choice "Add Theme" then addTheme;; run_loop fuel'
      else if String.eqb choice "Exit" || String.eqb choice "" then ret tt
      else run_loop fuel'
  end.

Definition run : M unit :=
  fuel ← enough_fuel;
  run_loop fuel.

(** [NewRofiManager()] for the home directory [home] that
    [os.UserHomeDir()] reports, in the file system [w] and with the answers
    [outs] to come.  [manager home cfg] is the struct with the paths the
    constructor computes and the configuration [cfg]; [new_manager] is the
    one before [ensureConfigDirs] and [loadConfig], whose [config] pointer
    is still nil. *)
Definition manager (home : string) (cfg : IniFile) : RofiManager :=
  let baseDir := FJoin [home; ".config"; "rofi-manager"] in
  {| baseDir := baseDir;
     themesDir := FJoin [baseDir; "themes"];
     scriptsDir := FJoin [baseDir; "scripts"];
     configPath := FJoin [baseDir; "config.conf"];
     config := cfg;
     allModes := ["run"; "drun"; "window"; "ssh"; "filebrowser"; "key"] |}.

Definition new_manager (home : string) : RofiManager := manager home ini_Empty.

Definition NewRofiManager (home : string) (w : World) (outs : list string)
  : Res unit :=
  (ensureConfigDirs;; loadConfig)
    {| rm := new_manager home; fs := w; answers := outs; calls := [];
       ranges := 0 |}.

Definition main (home : string) (w : World) (outs : list string) : Res unit :=
  match NewRofiManager home w outs with
  | Done _ st => run st
  | r => r
  end.

End Program.

Arguments toggle_loop : simpl never.
Arguments enableTheme_loop : simpl never.
Arguments run_loop : simpl never.

(** ** Instances of the two interfaces, for running the model *)

(** A small INI dialect: one [[section]] line and one [key = value] line
    for every key; the parser accepts blank lines, section lines and
    [key = value] lines, and trims keys and values. *)
Module ReferenceIni.

Definition render_key (e : string * string * string) : string :=
  let '(sec, key, v) := e in
  "[" +:+ sec +:+ "]" +:+ nl +:+ key +:+ " = " +:+ v +:+ nl.

Definition render (cfg : IniFile) : string :=
  String.concat "" (render_key <$> map_to_list cfg).

Definition parse_line (acc : option (string * IniFile)) (line : string)
  : option (string * IniFile) :=
  match acc with
  | None => None
  | Some (sec, cfg) =>
      let line := TrimSpace line in
      if String.eqb line "" then Some (sec, cfg)
      else if String.prefix "[" line && HasSuffix line "]" then
        Some (substring 1 (len line - 2) line, cfg)
      else
        match Split line "=" with
        | key :: (_ :: _) as vs =>
            Some (sec, <[(sec, TrimSpace key) := TrimSpace (Join vs "=")]> cfg)
        | _ => None
        end
  end.

Definition parse (text : string) : option IniFile :=
  snd <$> fold_left parse_line (Split text "010") (Some ("DEFAULT", ∅)).

#[export] Instance library : IniLibrary :=
  {| ini_render := render; ini_parse := parse |}.

End ReferenceIni.

(** Ranging over a map in the order of [elements]. *)
#[export] Program Instance elements_order : MapIteration :=
  {| range_keys := fun _ s => elements s |}.
Next Obligation. reflexivity. Qed.


(** ** Notions used in the statements *)

(** The three values the program keeps in the configuration. *)
Definition settings (cfg : IniFile) : string * string * string :=
  (ini_String cfg "modes" "enabled",
   ini_String cfg "scripts" "enabled",
   ini_String cfg "theme" "enabled").

(** The enabled modes and scripts a configuration holds, as
    [getEnabledModes] and [getEnabledScripts] read them. *)
Definition persisted_modes (st : State) : list string :=
  enabled_names (ini_String (config (rm st)) "modes" "enabled").

Definition persisted_scripts (st : State) : list string :=
  enabled_names (ini_String (config (rm st)) "scripts" "enabled").

Definition persisted_theme (st : State) : string :=
  ini_String (config (rm st)) "theme" "enabled".

(** The effects of the elementary operations on the state: a key looked
    up (and created when missing), a key set, the configuration saved, a
    menu shown and answered, a map ranged over. *)
Definition touch (sec key : string) (st : State) : State :=
  with_config (ini_Key (config (rm st)) sec key) st.

Definition set_key (sec key v : string) (st : State) : State :=
  with_config (ini_SetValue (config (rm st)) sec key v) st.

Definition after_menu (c : RofiCall) (st : State) : State :=
  {| rm := rm st; fs := fs st; answers := tl (answers st);
     calls := calls st ++ [c]; ranges := ranges st |}.

Definition after_range (st : State) : State :=
  {| rm := rm st; fs := fs st; answers := answers st; calls := calls st;
     ranges := S (ranges st) |}.

(** The state a computation ends in, however it ends. *)
Definition final {A} (r : Res A) : option State :=
  match r with
  | Done _ st | Panic st | Exited st => Some st
  | OutOfFuel => None
  end.

(** The value a computation returns, when it returns. *)
Definition value {A} (r : Res A) : option A :=
  match r with
  | Done a _ => Some a
  | _ => None
  end.

(** The runs of [rofi] a computation adds to the ones made before it. *)
Definition new_calls {A} (r : Res A) (st : State) : list RofiCall :=
  match final r with
  | Some st' => drop (length (calls st)) (calls st')
  | None => []
  end.

(** A computation that ends within its fuel and leaves no more answers
    than it found. *)
Definition settles (m : M unit) : Prop :=
  ∀ st, m st ≠ OutOfFuel
        ∧ ∀ st', m st = Done tt st' → length (answers st') ≤ length (answers st).

(** A path at which a file can be created or overwritten. *)
Definition writable (w : World) (path : string) : Prop :=
  (path ∉ denied w) ∧ (path ∉ readonly w) ∧ (path ∉ dirs w).

(** No leading or trailing white space. *)
Definition trimmed (name : string) : Prop := TrimSpace name = name.

(** A name without commas and without white space around it. *)
Definition comma_free_trimmed (name : string) : Prop :=
  lacks "," name ∧ trimmed name.

(** Such a name that is not empty either. *)
Definition valid_name (name : string) : Prop :=
  name ≠ "" ∧ comma_free_trimmed name.

(** The name a toggle loop takes from the output [out] of its menu:
    [strings.TrimSpace(choice[4:])] for the choice [TrimSpace out]. *)
Definition toggled_name (out : string) : option string :=
  TrimSpace <$> slice_from 4 (TrimSpace out).

(** The set of a toggle loop and the configuration agree: the names of the
    set have no comma and no white space around them, and the modes read
    from the configuration are the names of the set but the empty one. *)
Definition modes_synced (enabledSet : gset string) (st : State) : Prop :=
  (∀ m, m ∈ enabledSet → comma_free_trimmed m)
  ∧ (∀ m, m ∈ persisted_modes st ↔ m ∈ enabledSet ∧ m ≠ "").

(** The six modes of [NewRofiManager]. *)
Definition six_modes : list string :=
  ["run"; "drun"; "window"; "ssh"; "filebrowser"; "key"].

(** The last byte of a string. *)
Definition ends_with (b : ascii) (s : string) : Prop :=
  ∃ p, bytes s = p ++ [b].


(** The output of a menu is the entry of one of [names], checked or not. *)
Definition picks_from (names : list string) (out : string) : Prop :=
  ∃ (checked : bool) (name : string),
    name ∈ names ∧ TrimSpace out = checkbox checked name.



(** What a workflow on the setting of section [sec] leaves alone, from the
    state [st] to the state [st']: the paths and the modes of the manager,
    the keys [enabled] of the other sections, the directories, and every
    file but the configuration file. *)
Definition keeps_others (sec : string) (st st' : State) : Prop :=
  (baseDir (rm st'), themesDir (rm st'), scriptsDir (rm st'),
   configPath (rm st'), allModes (rm st'))
  = (baseDir (rm st), themesDir (rm st), scriptsDir (rm st),
     configPath (rm st), allModes (rm st))
  ∧ (∀ sec', sec' ≠ sec →
       ini_String (config (rm st')) sec' "enabled"
       = ini_String (config (rm st)) sec' "enabled")
  ∧ dirs (fs st') = dirs (fs st)
  ∧ ∀ p, p ≠ configPath (rm st) → files (fs st') !! p = files (fs st) !! p.

Section Notions.

Context `{IniLibrary} `{MapIteration}.


Definition saved (st : State) : State :=
  with_fs (ini_SaveTo (config (rm st)) (configPath (rm st)) (fs st)) st.

(** The run of [rofi] that [rofiMenu prompt options theme] makes. *)
Definition menu_call (prompt : string) (options : list string)
    (theme : string) (st : State) : RofiCall :=
  {| rofi_args := ["-dmenu"; "-p"; prompt] ++ theme_args st theme;
     rofi_stdin := Join options nl |}.

(** The run of [rofi] that [showInfo message] makes. *)
Definition info_call (message : string) (st : State) : RofiCall :=
  menu_call message ["OK"] (persisted_theme st) (touch "theme" "enabled" st).

(** The answer of the next menu, as [rofiMenu] returns it. *)
Definition next_choice (st : State) : string :=
  TrimSpace (hd "" (answers st)).

(** The state after an iteration of a toggle loop that toggles [name]. *)
Definition toggled (sec prompt : string) (names : list string)
    (enabledSet : gset string) (name : string) (st : State) : State :=
  let st1 := touch "theme" "enabled" st in
  let st2 := after_menu (menu_call prompt (toggle_options names enabledSet)
                                   (persisted_theme st) st1) st1 in
  saved (set_key sec "enabled"
           (Join (range_keys (ranges st) (flip name enabledSet)) ",")
           (after_range st2)).



(** The set and the state at the head of a toggle loop after [n] complete
    iterations; [None] when the loop has ended before. *)
Fixpoint toggle_iter (body : gset string → M (option (gset string)))
    (n : nat) (enabledSet : gset string) (st : State)
  : option (gset string * State) :=
  match n with
  | O => Some (enabledSet, st)
  | S n' =>
      match body enabledSet st with
      | Done (Some enabledSet') st' => toggle_iter body n' enabledSet' st'
      | _ => None
      end
  end.

(** The head of the loop of [toggleModes] after [n] iterations. *)
Definition toggleModes_head (n : nat) (st : State)
  : option (gset string * State) :=
  match getEnabledModes st with
  | Done enabled st' =>
      toggle_iter (toggleModes_body (allModes (rm st'))) n
                  (list_to_set enabled) st'
  | _ => None
  end.

End Notions.

(** ** States to run the model on *)

Module Examples.

Import ReferenceIni.

Definition home : string := "/home/u".

Definition empty_world : World :=
  {| files := ∅; dirs := ∅; denied := ∅; readonly := ∅ |}.

(** The state [NewRofiManager] reaches on an empty file system, with the
    answers [outs] to come. *)
Definition fresh (outs : list string) : State :=
  match NewRofiManager home empty_world outs with
  | Done _ st => st
  | _ => {| rm := new_manager home; fs := empty_world; answers := outs;
            calls := []; ranges := 0 |}
  end.

(** The same with the files [fls] added. *)
Definition fresh_with (fls : list (string * string)) (outs : list string)
  : State :=
  let st := fresh outs in
  with_fs {| files := list_to_map fls ∪ files (fs st); dirs := dirs (fs st);
             denied := denied (fs st); readonly := readonly (fs st) |} st.

End Examples.

(** ** The library models on small inputs *)

Section ModelExamples.

Import ReferenceIni.

Example Split_commas : Split "run,drun,,key" "," = ["run"; "drun"; ""; "key"].
Proof. reflexivity. Qed.

Example Split_empty : Split "" "," = [""].
Proof. reflexivity. Qed.

Example Join_commas : Join ["run"; "drun"; "key"] "," = "run,drun,key".
Proof. reflexivity. Qed.

Example Join_none : Join [] "," = "".
Proof. reflexivity. Qed.

Example TrimSpace_ascii : TrimSpace (" " +:+ nl +:+ "a b" +:+ nl) = "a b".
Proof. reflexivity. Qed.

(** U+00A0 before and U+2003 after the text. *)
Example TrimSpace_unicode :
  TrimSpace (String "194" (String "160" ("run" +:+ String "226" (String "128" (String "131" "")))))
  = "run".
Proof. reflexivity. Qed.

(** A lone continuation byte is not a space. *)
Example TrimSpace_invalid :
  TrimSpace (String "160" "run") = String "160" "run".
Proof. reflexivity. Qed.

Example HasSuffix_sh : HasSuffix "backup.sh" ".sh" = true.
Proof. reflexivity. Qed.

Example HasSuffix_short : HasSuffix "sh" ".sh" = false.
Proof. reflexivity. Qed.

Example slice_from_entry : slice_from 4 "[x] run" = Some "run".
Proof. reflexivity. Qed.

Example slice_from_short : slice_from 4 "run" = None.
Proof. reflexivity. Qed.

Example slice_from_exact : slice_from 4 "abcd" = Some "".
Proof. reflexivity. Qed.

Example Base_file : Base "/tmp/backup.sh" = "backup.sh".
Proof. reflexivity. Qed.

Example Base_trailing : Base "/tmp/dir//" = "dir".
Proof. reflexivity. Qed.

Example Base_root : Base "///" = "/".
Proof. reflexivity. Qed.

Example Base_empty : Base "" = ".".
Proof. reflexivity. Qed.

Example Clean_rooted : Clean "/a/../../b/./c//d/.." = "/b/c".
Proof. reflexivity. Qed.

Example Clean_relative : Clean "a/../../b" = "../b".
Proof. reflexivity. Qed.

Example Clean_nothing : Clean "a/.." = ".".
Proof. reflexivity. Qed.

Example FJoin_home :
  FJoin ["/home/u"; ".config"; "rofi-manager"] = "/home/u/.config/rofi-manager".
Proof. reflexivity. Qed.

Example FJoin_no_home :
  FJoin [""; ".config"; "rofi-manager"] = ".config/rofi-manager".
Proof. reflexivity. Qed.

Example ReadDir_sorted :
  ReadDir {| files := {["/s/b.sh" := ""; "/s/a.sh" := ""; "/s/sub/c.sh" := "";
                        "/t/x.rasi" := ""]};
             dirs := {["/s"; "/s/sub"; "/t"]}; denied := ∅; readonly := ∅ |}
          "/s"
  = ["a.sh"; "b.sh"; "sub"].
Proof. vm_compute. reflexivity. Qed.

Example render_default :
  render default_config
  = "[scripts]" +:+ nl +:+ "enabled = " +:+ nl
    +:+ "[modes]" +:+ nl +:+ "enabled = run,drun,window" +:+ nl
    +:+ "[theme]" +:+ nl +:+ "enabled = " +:+ nl.
Proof. vm_compute. reflexivity. Qed.

Example parse_render_default :
  settings <$> parse (render default_config)
  = Some ("run,drun,window", "", "").
Proof. vm_compute. reflexivity. Qed.

Example parse_garbage : parse "no section, no key" = None.
Proof. vm_compute. reflexivity. Qed.

End ModelExamples.

(** * Facts about the string functions *)

Section StringFacts.

Lemma str_bytes (s : string) : str (bytes s) = s.
Proof. apply string_of_list_ascii_of_string. Qed.

Lemma bytes_str (l : list ascii) : bytes (str l) = l.
Proof. apply list_ascii_of_string_of_list_ascii. Qed.

Lemma bytes_inj (s t : string) : bytes s = bytes t → s = t.
Proof. intros E. rewrite <- (str_bytes s), <- (str_bytes t). now rewrite E. Qed.

Lemma bytes_app (s t : string) : bytes (s +:+ t) = bytes s ++ bytes t.
Proof. induction s as [|c s IH]; simpl; [reflexivity|]. now rewrite <- IH. Qed.

Lemma len_bytes (s : string) : len s = length (bytes s).
Proof. induction s as [|c s IH]; simpl; [reflexivity|]. unfold len in *; simpl. now rewrite IH. Qed.

Lemma len_app (s t : string) : len (s +:+ t) = len s + len t.
Proof. rewrite !len_bytes, bytes_app. apply length_app. Qed.

Lemma lacksb_lacks (c : ascii) (s : string) : lacksb c s = true ↔ lacks c s.
Proof.
  unfold lacksb, lacks. induction (bytes s) as [|b l IH]; simpl.
  - split; [intros _; apply not_elem_of_nil | reflexivity].
  - rewrite andb_true_iff, IH, not_elem_of_cons, negb_true_iff.
    destruct (Ascii.eqb_spec b c) as [->|Hne]; split; intros [? ?];
      try done; split; congruence || done.
Qed.

Lemma lacks_cons (c b : ascii) (s : string) :
  lacks c (String b s) ↔ b ≠ c ∧ lacks c s.
Proof.
  unfold lacks; simpl. rewrite not_elem_of_cons. split; intros [? ?]; split; congruence.
Qed.

Lemma lacks_empty (c : ascii) : lacks c "".
Proof. unfold lacks; simpl. apply not_elem_of_nil. Qed.

(** *** [Split] and [Join] *)

Lemma Split_nonempty (s : string) (sep : ascii) : Split s sep ≠ [].
Proof.
  destruct s as [|c s]; simpl; [done|].
  destruct (Ascii.eqb c sep); [done|]. destruct (Split s sep); done.
Qed.

Lemma Split_lacks (s : string) (sep : ascii) :
  lacks sep s → Split s sep = [s].
Proof.
  induction s as [|c s IH]; intros Hs; simpl; [reflexivity|].
  apply lacks_cons in Hs as [Hc Hs].
  destruct (Ascii.eqb_spec c sep) as [->|_]; [done|]. now rewrite IH.
Qed.

Lemma Split_app (a b : string) (sep : ascii) :
  Split (a +:+ String sep b) sep =
  match Split b sep with
  | [] => Split a sep
  | _ => Split a sep ++ Split b sep
  end.
Proof.
  pose proof (Split_nonempty b sep) as Hb.
  destruct (Split b sep) as [|w ws] eqn:Eb; [done|]. clear Hb.
  induction a as [|c a IH]; simpl.
  - rewrite Ascii.eqb_refl, Eb. reflexivity.
  - change (String c a +:+ String sep b) with (String c (a +:+ String sep b)).
    simpl. destruct (Ascii.eqb c sep).
    + now rewrite IH.
    + rewrite IH. pose proof (Split_nonempty a sep).
      destruct (Split a sep); [done|reflexivity].
Qed.

Lemma Split_app_lacks (a b : string) (sep : ascii) :
  lacks sep a →
  Split (a +:+ String sep b) sep = a :: Split b sep.
Proof.
  intros Ha. rewrite Split_app, (Split_lacks a) by done.
  pose proof (Split_nonempty b sep). destruct (Split b sep); done.
Qed.

Lemma Split_pieces_lack (s : string) (sep : ascii) :
  Forall (lacks sep) (Split s sep).
Proof.
  induction s as [|c s IH]; simpl.
  - repeat constructor. apply lacks_empty.
  - destruct (Ascii.eqb_spec c sep) as [->|Hne].
    + constructor; [apply lacks_empty | done].
    + destruct (Split s sep) as [|w ws].
      * repeat constructor. apply lacks_cons. split; [done|apply lacks_empty].
      * inversion IH; subst. constructor; [|done]. apply lacks_cons. done.
Qed.

Lemma Join_cons (e : string) (rest : list string) (sep : string) :
  rest ≠ [] → Join (e :: rest) sep = e +:+ sep +:+ Join rest sep.
Proof. destruct rest; done. Qed.

(** Splitting what was joined gives the elements back, when none of them
    contains the separator; the empty list is the exception
    ([Split "" sep = [""]]). *)
Lemma Split_Join (l : list string) (sep : ascii) :
  l ≠ [] → Forall (lacks sep) l →
  Split (Join l (String sep "")) sep = l.
Proof.
  induction l as [|e rest IH]; [done|]. intros _ Hl.
  inversion Hl as [|? ? He Hrest]; subst.
  destruct rest as [|e' rest'].
  - simpl. now apply Split_lacks.
  - rewrite Join_cons by done.
    change (e +:+ String sep "" +:+ Join (e' :: rest') (String sep ""))
      with (e +:+ String sep (Join (e' :: rest') (String sep ""))).
    rewrite Split_app_lacks by done. f_equal. now apply IH.
Qed.

Lemma Split_Join_nil (sep : ascii) :
  Split (Join [] (String sep "")) sep = [""].
Proof. reflexivity. Qed.

End StringFacts.

(** *** [TrimSpace] *)

Section TrimFacts.

Lemma is_prefix_spec (p l : list ascii) :
  is_prefix p l = true ↔ ∃ t, l = p ++ t.
Proof.
  revert l. induction p as [|a p IH]; intros l; simpl.
  - split; [intros _; now exists l | reflexivity].
  - destruct l as [|b l].
    + split; [done | intros [t Ht]; done].
    + rewrite andb_true_iff, IH. split.
      * intros [Hab [t ->]]. apply Ascii.eqb_eq in Hab as ->. now exists t.
      * intros [t Ht]. injection Ht as -> ->. split; [apply Ascii.eqb_refl | now exists t].
Qed.

Lemma strip_rune_Some (rs : list (list ascii)) (l l' : list ascii) :
  strip_rune rs l = Some l' → ∃ r, r ∈ rs ∧ l = r ++ l'.
Proof.
  unfold strip_rune. destruct (List.find _ rs) as [r|] eqn:E; [|done].
  intros [= <-]. apply find_some in E as [Hin Hp].
  exists r. split; [now apply list_elem_of_In|].
  apply is_prefix_spec in Hp as [t ->]. now rewrite drop_app_length.
Qed.

Lemma strip_rune_None (rs : list (list ascii)) (l : list ascii) :
  strip_rune rs l = None ↔ ∀ r, r ∈ rs → is_prefix r l = false.
Proof.
  unfold strip_rune. destruct (List.find _ rs) as [r|] eqn:E.
  - split; [done|]. intros Hall. apply find_some in E as [Hin Hp].
    rewrite Hall in Hp; [done | now apply list_elem_of_In].
  - split; [|done]. intros _ r Hr.
    apply (find_none _ _ E). now apply list_elem_of_In.
Qed.

(** A string that starts with none of the sequences has no prefix that
    starts with one. *)
Lemma strip_rune_None_prefix (rs : list (list ascii)) (a b : list ascii) :
  strip_rune rs (a ++ b) = None → strip_rune rs a = None.
Proof.
  rewrite !strip_rune_None. intros Hall r Hr.
  destruct (is_prefix r a) eqn:E; [|reflexivity].
  apply is_prefix_spec in E as [t ->].
  rewrite <- (Hall r Hr). symmetry. apply is_prefix_spec.
  exists (t ++ b). now rewrite app_assoc.
Qed.

Lemma trim_fuel_suffix (rs : list (list ascii)) (n : nat) (l : list ascii) :
  ∃ p, l = p ++ trim_fuel rs n l.
Proof.
  revert l. induction n as [|n IH]; intros l; simpl; [now exists []|].
  destruct (strip_rune rs l) as [l'|] eqn:E; [|now exists []].
  apply strip_rune_Some in E as (r & _ & ->).
  destruct (IH l') as [p Hp]. exists (r ++ p). now rewrite <- app_assoc, <- Hp.
Qed.

Lemma trim_fuel_stops (rs : list (list ascii)) (n : nat) (l : list ascii) :
  Forall (fun r => r ≠ []) rs → length l ≤ n →
  strip_rune rs (trim_fuel rs n l) = None.
Proof.
  intros Hne. revert l. induction n as [|n IH]; intros l Hl; simpl.
  - destruct l; [|simpl in Hl; lia].
    apply strip_rune_None. intros r Hr.
    rewrite Forall_forall in Hne. specialize (Hne r Hr). destruct r; done.
  - destruct (strip_rune rs l) as [l'|] eqn:E; [|done].
    apply IH. apply strip_rune_Some in E as (r & Hr & ->).
    rewrite Forall_forall in Hne. specialize (Hne r Hr).
    rewrite length_app in Hl. destruct r; [done|]. simpl in Hl. lia.
Qed.

Lemma trim_fuel_id (rs : list (list ascii)) (n : nat) (l : list ascii) :
  strip_rune rs l = None → trim_fuel rs n l = l.
Proof. intros E. destruct n; simpl; [done|]. now rewrite E. Qed.

Lemma space_runes_nonempty : Forall (fun r : list ascii => r ≠ []) space_runes.
Proof. unfold space_runes. repeat constructor; done. Qed.

Lemma space_runes_rev_nonempty :
  Forall (fun r : list ascii => r ≠ []) (map (@rev ascii) space_runes).
Proof. unfold space_runes. simpl. repeat constructor; done. Qed.

Lemma TrimLeftSpace_stops (l : list ascii) :
  strip_rune space_runes (TrimLeftSpace l) = None.
Proof. apply trim_fuel_stops; [apply space_runes_nonempty | done]. Qed.

Lemma TrimRightSpace_prefix (l : list ascii) :
  ∃ q, l = TrimRightSpace l ++ q.
Proof.
  unfold TrimRightSpace.
  destruct (trim_fuel_suffix (map (@rev ascii) space_runes) (length l) (rev l))
    as [p Hp].
  exists (rev p). rewrite <- rev_app_distr, <- Hp. now rewrite rev_involutive.
Qed.

Lemma TrimRightSpace_fixed (l : list ascii) :
  TrimRightSpace (TrimRightSpace l) = TrimRightSpace l.
Proof.
  unfold TrimRightSpace at 1 3. unfold TrimRightSpace. rewrite rev_involutive.
  rewrite trim_fuel_id; [reflexivity|].
  apply trim_fuel_stops; [apply space_runes_rev_nonempty|].
  now rewrite length_rev.
Qed.

(** The bytes of a string are those trimmed on the left, then the bytes
    of the trimmed string, then those trimmed on the right. *)
Lemma TrimSpace_infix (s : string) :
  ∃ p q, bytes s = p ++ bytes (TrimSpace s) ++ q.
Proof.
  unfold TrimSpace. rewrite bytes_str.
  destruct (trim_fuel_suffix space_runes (length (bytes s)) (bytes s)) as [p Hp].
  destruct (TrimRightSpace_prefix (TrimLeftSpace (bytes s))) as [q Hq].
  exists p, q. unfold TrimLeftSpace in *. now rewrite <- Hq.
Qed.

Lemma TrimSpace_lacks (c : ascii) (s : string) :
  lacks c s → lacks c (TrimSpace s).
Proof.
  unfold lacks. destruct (TrimSpace_infix s) as (p & q & ->).
  rewrite !elem_of_app. tauto.
Qed.

(** Trimming a trimmed string changes nothing. *)
Lemma TrimSpace_idemp (s : string) : TrimSpace (TrimSpace s) = TrimSpace s.
Proof.
  unfold TrimSpace. rewrite bytes_str. f_equal.
  set (z := TrimLeftSpace (bytes s)).
  assert (Hy : TrimLeftSpace (TrimRightSpace z) = TrimRightSpace z).
  { unfold TrimLeftSpace at 1. apply trim_fuel_id.
    destruct (TrimRightSpace_prefix z) as [q Hq].
    apply (strip_rune_None_prefix _ _ q). rewrite <- Hq.
    apply TrimLeftSpace_stops. }
  rewrite Hy. apply TrimRightSpace_fixed.
Qed.

Lemma TrimSpace_empty : TrimSpace "" = "".
Proof. reflexivity. Qed.

End TrimFacts.

(** * Facts about the program *)

Section SliceFacts.

Lemma substring_skip (p t : string) (n : nat) :
  substring (len p) n (p +:+ t) = substring 0 n t.
Proof. unfold len. induction p as [|c p IH]; simpl; [reflexivity | exact IH]. Qed.

Lemma substring_all (t : string) : substring 0 (len t) t = t.
Proof. unfold len. induction t as [|c t IH]; simpl; [reflexivity | now rewrite IH]. Qed.

Lemma substring_split (s : string) (n : nat) :
  n ≤ len s → s = substring 0 n s +:+ substring n (len s - n) s.
Proof.
  revert n. induction s as [|c s IH]; intros n Hn.
  - destruct n; reflexivity.
  - destruct n as [|n].
    + rewrite Nat.sub_0_r, substring_all. reflexivity.
    + change (String c s =
              String c (substring 0 n s +:+ substring n (len s - n) s)).
      f_equal. apply IH. unfold len in *. simpl in Hn. lia.
Qed.


Lemma slice_from_app (p t : string) (n : nat) :
  len p = n → slice_from n (p +:+ t) = Some t.
Proof.
  intros <-. unfold slice_from. rewrite len_app.
  destruct (Nat.leb_spec (len p) (len p + len t)) as [_|]; [|lia].
  rewrite substring_skip. replace (len p + len t - len p) with (len t) by lia.
  now rewrite substring_all.
Qed.


Lemma slice_from_is_Some (s : string) (n : nat) :
  n ≤ len s → is_Some (slice_from n s).
Proof.
  intros Hn. unfold slice_from.
  destruct (Nat.leb_spec n (len s)); [eauto | lia].
Qed.

Lemma HasSuffix_spec (s suffix : string) :
  HasSuffix s suffix = true ↔ ∃ p, s = p +:+ suffix.
Proof.
  unfold HasSuffix. rewrite andb_true_iff, Nat.leb_le, String.eqb_eq. split.
  - intros [Hle E]. exists (substring 0 (len s - len suffix) s).
    pose proof (substring_split s (len s - len suffix)) as Hs.
    replace (len s - (len s - len suffix)) with (len suffix) in Hs by lia.
    rewrite E in Hs. apply Hs. lia.
  - intros [p ->]. rewrite len_app. split; [lia|].
    replace (len p + len suffix - len suffix) with (len p) by lia.
    rewrite substring_skip. apply substring_all.
Qed.

Lemma checkbox_slice (checked : bool) (name : string) :
  slice_from 4 (checkbox checked name) = Some name.
Proof.
  destruct checked;
    [exact (slice_from_app "[x] " name 4 eq_refl)
    |exact (slice_from_app "[ ] " name 4 eq_refl)].
Qed.

Lemma checkbox_len (checked : bool) (name : string) :
  len (checkbox checked name) = 4 + len name.
Proof. destruct checked; reflexivity. Qed.


End SliceFacts.

(** ** The configuration in memory *)

Section IniFacts.

Lemma ini_String_Key (cfg : IniFile) (sec key sec' key' : string) :
  ini_String (ini_Key cfg sec key) sec' key' = ini_String cfg sec' key'.
Proof.
  unfold ini_String, ini_Key.
  destruct (cfg !! (sec, key)) eqn:E; [reflexivity|].
  destruct (decide ((sec, key) = (sec', key'))) as [<-|Hne].
  - now rewrite lookup_insert_eq, E.
  - now rewrite lookup_insert_ne.
Qed.

Lemma ini_String_SetValue (cfg : IniFile) (sec key v : string) :
  ini_String (ini_SetValue cfg sec key v) sec key = v.
Proof. unfold ini_String, ini_SetValue. now rewrite lookup_insert_eq. Qed.

Lemma ini_String_SetValue_ne (cfg : IniFile) (sec key v sec' key' : string) :
  (sec, key) ≠ (sec', key') →
  ini_String (ini_SetValue cfg sec key v) sec' key' = ini_String cfg sec' key'.
Proof. intros Hne. unfold ini_String, ini_SetValue. now rewrite lookup_insert_ne. Qed.

Lemma ini_Key_SetValue (cfg : IniFile) (sec key v : string) :
  ini_Key (ini_SetValue cfg sec key v) sec key = ini_SetValue cfg sec key v.
Proof. unfold ini_Key, ini_SetValue. now rewrite lookup_insert_eq. Qed.

Lemma settings_Key (cfg : IniFile) (sec key : string) :
  settings (ini_Key cfg sec key) = settings cfg.
Proof. unfold settings. now rewrite !ini_String_Key. Qed.

End IniFacts.

(** ** The elementary operations *)

Section ProgramFacts.

Context `{IniLibrary} `{MapIteration}.

Local Opaque TrimSpace Split Join HasSuffix FJoin Base slice_from.

Lemma key_String_eq (sec key : string) (st : State) :
  key_String sec key st
  = Done (ini_String (config (rm st)) sec key) (touch sec key st).
Proof. reflexivity. Qed.

Lemma getEnabledTheme_eq (st : State) :
  getEnabledTheme st = Done (persisted_theme st) (touch "theme" "enabled" st).
Proof. reflexivity. Qed.

Lemma getEnabledModes_eq (st : State) :
  getEnabledModes st = Done (persisted_modes st) (touch "modes" "enabled" st).
Proof. reflexivity. Qed.

Lemma getEnabledScripts_eq (st : State) :
  getEnabledScripts st
  = Done (persisted_scripts st) (touch "scripts" "enabled" st).
Proof. reflexivity. Qed.

Lemma setEnabledModes_eq (modes : list string) (st : State) :
  setEnabledModes modes st
  = Done tt (saved (set_key "modes" "enabled" (Join modes ",") st)).
Proof. reflexivity. Qed.

Lemma setEnabledScripts_eq (scripts : list string) (st : State) :
  setEnabledScripts scripts st
  = Done tt (saved (set_key "scripts" "enabled" (Join scripts ",") st)).
Proof. reflexivity. Qed.

Lemma setEnabledTheme_eq (theme : string) (st : State) :
  setEnabledTheme theme st
  = Done tt (saved (set_key "theme" "enabled" theme st)).
Proof. reflexivity. Qed.

Lemma rofiMenu_eq (prompt : string) (options : list string) (theme : string)
    (st : State) :
  rofiMenu prompt options theme st
  = Done (next_choice st) (after_menu (menu_call prompt options theme st) st).
Proof. reflexivity. Qed.

Lemma showInfo_eq (message : string) (st : State) :
  showInfo message st
  = Done tt (after_menu (info_call message st) (touch "theme" "enabled" st)).
Proof. reflexivity. Qed.

Lemma key_SetValue_eq (sec key v : string) (st : State) :
  key_SetValue sec key v st = Done tt (set_key sec key v st).
Proof. reflexivity. Qed.

Lemma saveConfig_eq (st : State) : saveConfig st = Done tt (saved st).
Proof. reflexivity. Qed.

Lemma ensureConfigDirs_eq (st : State) :
  ensureConfigDirs st
  = let w := MkdirAll (MkdirAll (fs st) (themesDir (rm st)))
                      (scriptsDir (rm st)) in
    Done tt (with_fs match os_Stat w (configPath (rm st)) with
                     | StatNotExist =>
                         ini_SaveTo default_config (configPath (rm st)) w
                     | _ => w
                     end st).
Proof.
  unfold ensureConfigDirs, mbind, M_bind, bind, get, modify. cbn.
  destruct (os_Stat _ _); reflexivity.
Qed.

Lemma loadConfig_eq (st : State) :
  loadConfig st
  = match ini_Load (fs st) (configPath (rm st)) with
    | Some cfg => Done tt (with_config cfg st)
    | None =>
        Done tt (with_config default_config
                   (with_fs (ini_SaveTo default_config (configPath (rm st))
                                        (fs st)) st))
    end.
Proof.
  unfold loadConfig, mbind, M_bind, bind, get, modify. cbn.
  destruct (ini_Load _ _); reflexivity.
Qed.

Ltac mstep :=
  repeat (progress
    (unfold mbind, M_bind, mret, M_ret, bind, ret, get, modify; cbn;
     rewrite ?getEnabledTheme_eq, ?getEnabledModes_eq, ?getEnabledScripts_eq,
       ?setEnabledModes_eq, ?setEnabledScripts_eq, ?setEnabledTheme_eq,
       ?rofiMenu_eq, ?showInfo_eq, ?key_SetValue_eq, ?saveConfig_eq,
       ?key_String_eq)).

(** One iteration of a toggle loop, spelled out. *)
Lemma toggle_body_eq (prompt sec : string) (names : list string)
    (S : gset string) (st : State) :
  let st1 := touch "theme" "enabled" st in
  let st2 := after_menu (menu_call prompt (toggle_options names S)
                                   (persisted_theme st) st1) st1 in
  toggle_body prompt names
    (fun l => key_SetValue sec "enabled" (Join l ",");; saveConfig) S st
  = if decide (next_choice st = "") then Done None st2
    else match slice_from 4 (next_choice st) with
         | None => Panic st2
         | Some rest =>
             let S' := flip (TrimSpace rest) S in
             Done (Some S')
                  (saved (set_key sec "enabled"
                            (Join (range_keys (ranges st) S') ",")
                            (after_range st2)))
         end.
Proof.
  intros st1 st2. unfold toggle_body. mstep.
  change (next_choice (touch "theme" "enabled" st)) with (next_choice st).
  destruct (decide (next_choice st = "")); [reflexivity|].
  unfold after_mark. destruct (slice_from 4 (next_choice st)); reflexivity.
Qed.

Lemma toggleModes_body_eq (modes : list string) (S : gset string)
    (st : State) :
  let st1 := touch "theme" "enabled" st in
  let st2 := after_menu (menu_call "Toggle modes (Enter to finish)"
                           (toggle_options modes S)
                           (persisted_theme st) st1) st1 in
  toggleModes_body modes S st
  = if decide (next_choice st = "") then Done None st2
    else match slice_from 4 (next_choice st) with
         | None => Panic st2
         | Some rest =>
             let S' := flip (TrimSpace rest) S in
             Done (Some S')
                  (saved (set_key "modes" "enabled"
                            (Join (range_keys (ranges st) S') ",")
                            (after_range st2)))
         end.
Proof. exact (toggle_body_eq _ "modes" modes S st). Qed.

Lemma enableScript_body_eq (scripts : list string) (S : gset string)
    (st : State) :
  let st1 := touch "theme" "enabled" st in
  let st2 := after_menu (menu_call "Toggle scripts (Enter to finish)"
                           (toggle_options scripts S)
                           (persisted_theme st) st1) st1 in
  enableScript_body scripts S st
  = if decide (next_choice st = "") then Done None st2
    else match slice_from 4 (next_choice st) with
         | None => Panic st2
         | Some rest =>
             let S' := flip (TrimSpace rest) S in
             Done (Some S')
                  (saved (set_key "scripts" "enabled"
                            (Join (range_keys (ranges st) S') ",")
                            (after_range st2)))
         end.
Proof. exact (toggle_body_eq _ "scripts" scripts S st). Qed.



(** A step of [toggleModes] that goes on to the next iteration is a
    [toggled] state. *)
Lemma toggleModes_body_Some (modes : list string) (S S' : gset string)
    (st st' : State) :
  toggleModes_body modes S st = Done (Some S') st' →
  ∃ r, next_choice st ≠ "" ∧ slice_from 4 (next_choice st) = Some r
       ∧ S' = flip (TrimSpace r) S
       ∧ st' = toggled "modes" "Toggle modes (Enter to finish)" modes S
                       (TrimSpace r) st.
Proof.
  rewrite toggleModes_body_eq. cbv zeta.
  destruct (decide (next_choice st = "")); [done|].
  destruct (slice_from 4 (next_choice st)) as [r|]; [|done].
  intros [= <- <-]. now exists r.
Qed.

Lemma answers_toggled sec prompt names S name st :
  answers (toggled sec prompt names S name st) = tl (answers st).
Proof. reflexivity. Qed.

Lemma rm_paths_toggled sec prompt names S name st :
  allModes (rm (toggled sec prompt names S name st)) = allModes (rm st)
  ∧ configPath (rm (toggled sec prompt names S name st)) = configPath (rm st).
Proof. split; reflexivity. Qed.

Lemma value_toggled sec prompt names S name st :
  ini_String (config (rm (toggled sec prompt names S name st))) sec "enabled"
  = Join (range_keys (ranges st) (flip name S)) ",".
Proof. cbn. apply ini_String_SetValue. Qed.

Lemma calls_toggled sec prompt names S name st :
  calls (toggled sec prompt names S name st)
  = calls st ++ [menu_call prompt (toggle_options names S) (persisted_theme st)
                           (touch "theme" "enabled" st)].
Proof. reflexivity. Qed.

Lemma WriteFile_writable (w : World) (path data : string) :
  writable w path →
  WriteFile w path data
  = ({| files := <[path := data]> (files w); dirs := dirs w;
        denied := denied w; readonly := readonly w |}, None).
Proof.
  intros (Hd & Hr & Hdir). unfold WriteFile.
  rewrite decide_False by tauto. now rewrite decide_False.
Qed.

(** Saving to a writable path leaves the text of the configuration in
    the file. *)
Lemma saved_files (st : State) :
  writable (fs st) (configPath (rm st)) →
  files (fs (saved st)) !! configPath (rm st)
  = Some (ini_render (config (rm st))).
Proof.
  intros Hw. unfold saved, ini_SaveTo. rewrite WriteFile_writable by done.
  cbn. apply lookup_insert_eq.
Qed.


Lemma next_choice_cons (st : State) (out : string) (rest : list string) :
  answers st = out :: rest → next_choice st = TrimSpace out.
Proof. intros E. unfold next_choice. now rewrite E. Qed.

Lemma elem_of_toggle_options (names : list string) (S : gset string)
    (option : string) :
  option ∈ toggle_options names S ↔
  ∃ name, name ∈ names ∧ option = checkbox (bool_decide (name ∈ S)) name.
Proof.
  unfold toggle_options. rewrite list_elem_of_fmap.
  split; intros (name & ? & ?); exists name; done.
Qed.

Lemma elem_of_theme_options (themes : list string) (enabledTheme : string)
    (option : string) :
  option ∈ theme_options themes enabledTheme ↔
  ∃ theme, theme ∈ themes
           ∧ option = checkbox (bool_decide (theme = enabledTheme)) theme.
Proof.
  unfold theme_options. rewrite list_elem_of_fmap.
  split; intros (name & ? & ?); exists name; done.
Qed.

Lemma enableTheme_body_eq (themes : list string) (enabledTheme : string)
    (st : State) :
  let st1 := after_menu (menu_call "Select theme (Enter to escape)"
                           (theme_options themes enabledTheme)
                           enabledTheme st) st in
  enableTheme_body themes enabledTheme st
  = if decide (next_choice st = "") then Done None st1
    else match slice_from 4 (next_choice st) with
         | None => Panic st1
         | Some rest =>
             let theme := TrimSpace rest in
             let new := if decide (theme = enabledTheme) then "" else theme in
             Done (Some new) (saved (set_key "theme" "enabled" new st1))
         end.
Proof.
  intros st1. unfold enableTheme_body. mstep.
  destruct (decide (next_choice st = "")); [reflexivity|].
  unfold after_mark. destruct (slice_from 4 (next_choice st)) as [rest|]; [|reflexivity].
  mstep. unfold persisted_theme, touch, saved, set_key. cbn.
  rewrite ini_Key_SetValue, ini_String_SetValue. reflexivity.
Qed.

End ProgramFacts.

(** Running a computation step by step. *)
Ltac mstep :=
  repeat (progress
    (unfold mbind, M_bind, mret, M_ret, bind, ret, get, modify; cbn;
     rewrite ?getEnabledTheme_eq, ?getEnabledModes_eq, ?getEnabledScripts_eq,
       ?setEnabledModes_eq, ?setEnabledScripts_eq, ?setEnabledTheme_eq,
       ?rofiMenu_eq, ?showInfo_eq, ?key_SetValue_eq, ?saveConfig_eq,
       ?key_String_eq)).

(** ** Paths *)

Section PathFacts.

Lemma ends_with_inj (b b' : ascii) (s : string) :
  ends_with b s → ends_with b' s → b = b'.
Proof.
  intros [p Hp] [p' Hp']. rewrite Hp in Hp'.
  apply app_inj_tail in Hp'. now destruct Hp'.
Qed.

Lemma ends_with_app (b : ascii) (s t : string) :
  ends_with b t → ends_with b (s +:+ t).
Proof.
  intros [p Hp]. exists (bytes s ++ p). now rewrite bytes_app, Hp, app_assoc.
Qed.

Lemma ends_with_str (b : ascii) (l : list ascii) : ends_with b (str (l ++ [b])).
Proof. exists l. apply bytes_str. Qed.










End PathFacts.

(** ** Joining a cleaned path and a name *)

Section CleanFacts.


















End CleanFacts.

(** ** The comma-separated lists of names *)

Section NameFacts.

Lemma fmap_trimmed (l : list string) :
  Forall trimmed l → TrimSpace <$> l = l.
Proof.
  induction 1 as [|x l Hx _ IH]; [reflexivity|].
  rewrite fmap_cons, Hx, IH. reflexivity.
Qed.


(** Reading a joined list back drops its empty names and nothing else,
    when the names have no comma and no white space around them. *)
Lemma enabled_names_Join (l : list string) :
  Forall comma_free_trimmed l →
  enabled_names (Join l ",") = filter (fun m => m ≠ "") l.
Proof.
  intros Hl. unfold enabled_names.
  destruct (decide (l = [])) as [->|Hne]; [reflexivity|].
  change (Join l ",") with (Join l (String ","%char "")).
  rewrite Split_Join; [|done|].
  - rewrite fmap_trimmed; [reflexivity|].
    eapply Forall_impl; [exact Hl|]. now intros x [_ ?].
  - eapply Forall_impl; [exact Hl|]. now intros x [? _].
Qed.


(** Whatever the value of the key, the names read from it are valid. *)
Lemma enabled_names_valid (val : string) :
  Forall valid_name (enabled_names val).
Proof.
  unfold enabled_names. apply Forall_forall. intros m Hm.
  apply list_elem_of_filter in Hm as [Hne Hm].
  apply list_elem_of_fmap in Hm as (piece & -> & Hpiece).
  split; [done|]. split.
  - apply TrimSpace_lacks.
    pose proof (Split_pieces_lack val ","%char) as Hall.
    rewrite Forall_forall in Hall. now apply Hall.
  - apply TrimSpace_idemp.
Qed.


Lemma elem_of_flip (name x : string) (S : gset string) :
  x ∈ flip name S ↔ (x ∈ S ∧ x ≠ name) ∨ (x = name ∧ name ∉ S).
Proof.
  unfold flip. destruct (decide (name ∈ S)) as [Hin|Hout];
    destruct (decide (x = name)) as [->|]; set_solver.
Qed.

End NameFacts.

(** ** The file system *)

Section WorldFacts.

Context `{IniLibrary}.










End WorldFacts.

(** ** The loop of [toggleModes] *)

Lemma six_modes_good :
  Forall (fun m => valid_name m ∧ lacks "010" m) six_modes.
Proof.
  unfold six_modes. repeat constructor; try done;
    apply lacksb_lacks; reflexivity.
Qed.

Section LoopFacts.

Context `{IniLibrary} `{MapIteration}.

Local Opaque TrimSpace Split Join HasSuffix FJoin Base slice_from.



Lemma toggled_name_picks (names : list string) (out name : string) :
  Forall trimmed names →
  picks_from names out → toggled_name out = Some name → name ∈ names.
Proof.
  intros Hnames (checked & name' & Hin & Hc). unfold toggled_name.
  rewrite Hc, checkbox_slice. cbn. intros [= <-].
  rewrite Forall_forall in Hnames. now rewrite (Hnames _ Hin).
Qed.

Lemma persisted_modes_touch (sec key : string) (st : State) :
  persisted_modes (touch sec key st) = persisted_modes st.
Proof. unfold persisted_modes. cbn. now rewrite ini_String_Key. Qed.

Lemma modes_synced_init (st : State) :
  modes_synced (list_to_set (persisted_modes st)) (touch "modes" "enabled" st).
Proof.
  pose proof (enabled_names_valid (ini_String (config (rm st)) "modes" "enabled"))
    as Hv. fold (persisted_modes st) in Hv. rewrite Forall_forall in Hv.
  split.
  - intros m Hm. apply elem_of_list_to_set in Hm. now destruct (Hv m Hm).
  - intros m. rewrite persisted_modes_touch, elem_of_list_to_set.
    split; [|tauto]. intros Hm. split; [done|]. now destruct (Hv m Hm).
Qed.

Lemma modes_synced_step (prompt : string) (names : list string)
    (S : gset string) (name : string) (st : State) :
  modes_synced S st → comma_free_trimmed name →
  modes_synced (flip name S) (toggled "modes" prompt names S name st).
Proof.
  intros [Hel _] Hname.
  assert (Hel' : ∀ m, m ∈ flip name S → comma_free_trimmed m).
  { intros m Hm. apply elem_of_flip in Hm as [[Hm _]|[-> _]]; auto. }
  split; [exact Hel'|]. intros m.
  unfold persisted_modes. rewrite value_toggled.
  rewrite enabled_names_Join.
  - rewrite list_elem_of_filter, range_keys_perm, elem_of_elements. tauto.
  - apply Forall_forall. intros x Hx. apply Hel'.
    now rewrite range_keys_perm, elem_of_elements in Hx.
Qed.

(** A property of the set and the state that every toggle step keeps, for
    the names the answers give, holds at the head of every iteration. *)
Lemma toggle_iter_invariant (modes : list string) (P : string → Prop)
    (I : gset string → State → Prop) :
  (∀ S st name, I S st → P name →
     I (flip name S)
       (toggled "modes" "Toggle modes (Enter to finish)" modes S name st)) →
  ∀ n S st S' st',
    I S st →
    Forall (fun out => ∀ name, toggled_name out = Some name → P name)
           (take n (answers st)) →
    toggle_iter (toggleModes_body modes) n S st = Some (S', st') →
    I S' st'.
Proof.
  intros Hstep. induction n as [|n IH]; intros S st S' st' HI Hans Hit.
  - cbn in Hit. now injection Hit as <- <-.
  - cbn in Hit.
    destruct (toggleModes_body modes S st) as [[S1|] st1| | |] eqn:Hb; try done.
    apply toggleModes_body_Some in Hb as (r & Hne & Hs & -> & ->).
    destruct (answers st) as [|out rest] eqn:Ea.
    { exfalso. apply Hne. unfold next_choice. now rewrite Ea. }
    rewrite (next_choice_cons st out rest Ea) in Hs.
    cbn in Hans. inversion Hans as [|? ? Hout Hrest]; subst.
    apply (IH _ _ _ _ (Hstep S st (TrimSpace r) HI
             (Hout _ ltac:(unfold toggled_name; now rewrite Hs)))); [|exact Hit].
    rewrite answers_toggled, Ea. exact Hrest.
Qed.




Lemma toggle_loop_S (body : gset string → M (option (gset string)))
    (fuel : nat) (S : gset string) (st : State) :
  toggle_loop (Datatypes.S fuel) body S st
  = match body S st with
    | Done (Some S') st' => toggle_loop fuel body S' st'
    | Done None st' => Done tt st'
    | Panic st' => Panic st'
    | Exited st' => Exited st'
    | OutOfFuel => OutOfFuel
    end.
Proof.
  unfold toggle_loop at 1. fold toggle_loop. unfold mbind, M_bind, bind.
  destruct (body S st) as [[S'|] st'| | |]; reflexivity.
Qed.

(** The loop function runs through the heads that [toggle_iter] gives. *)
Lemma toggle_loop_iter (body : gset string → M (option (gset string)))
    (n fuel : nat) :
  ∀ S st S' st',
    toggle_iter body n S st = Some (S', st') →
    toggle_loop (n + fuel) body S st = toggle_loop fuel body S' st'.
Proof.
  induction n as [|n IH]; intros S st S' st' Hit; cbn in Hit.
  - now injection Hit as <- <-.
  - change (Datatypes.S n + fuel) with (Datatypes.S (n + fuel)).
    rewrite toggle_loop_S.
    destruct (body S st) as [[S1|] st1| | |]; try done. now apply IH.
Qed.

(** *** The loops end *)

Lemma toggle_loop_ends (body : gset string → M (option (gset string))) :
  (∀ S st, body S st ≠ OutOfFuel) →
  (∀ S st S' st', body S st = Done (Some S') st' →
                  length (answers st') < length (answers st)) →
  ∀ fuel S st,
    length (answers st) < fuel → toggle_loop fuel body S st ≠ OutOfFuel.
Proof.
  intros Hbody Hdec. induction fuel as [|fuel IH]; intros S st Hlen; [lia|].
  rewrite toggle_loop_S.
  destruct (body S st) as [[S1|] st1| | |] eqn:Hb; try done.
  - apply IH. specialize (Hdec _ _ _ _ Hb). lia.
  - now apply Hbody in Hb.
Qed.

Lemma next_choice_answers (st : State) :
  next_choice st ≠ "" → length (tl (answers st)) < length (answers st).
Proof.
  unfold next_choice. destruct (answers st); cbn; [|lia].
  intros Hne. now destruct Hne.
Qed.

Lemma toggle_body_ends (prompt sec : string) (names : list string) :
  let body := toggle_body prompt names
                (fun l => key_SetValue sec "enabled" (Join l ",");; saveConfig) in
  (∀ S st, body S st ≠ OutOfFuel)
  ∧ (∀ S st S' st', body S st = Done (Some S') st' →
                    length (answers st') < length (answers st)).
Proof.
  split; intros S st; [|intros S' st']; rewrite toggle_body_eq; cbv zeta;
    destruct (decide (next_choice st = "")); try done;
    destruct (slice_from 4 (next_choice st)); try done.
  intros [= _ <-]. cbn. now apply next_choice_answers.
Qed.

(** [toggleModes] ends: the fuel it takes is enough. *)
Lemma toggleModes_ends (st : State) : toggleModes st ≠ OutOfFuel.
Proof.
  unfold toggleModes, enough_fuel. mstep.
  destruct (toggle_body_ends "Toggle modes (Enter to finish)" "modes"
              (allModes (rm st))) as [Hb Hd].
  apply (toggle_loop_ends _ Hb Hd). cbn. lia.
Qed.

(** [enableScript] ends. *)
Lemma enableScript_ends (st : State) : enableScript st ≠ OutOfFuel.
Proof.
  unfold enableScript, loadScripts, enough_fuel. mstep.
  match goal with |- context [decide (?P)] => destruct (decide P) end;
    mstep; [done|].
  match goal with
  | |- toggle_loop _ (enableScript_body ?scripts) _ _ ≠ _ =>
      destruct (toggle_body_ends "Toggle scripts (Enter to finish)" "scripts"
                  scripts) as [Hb Hd]
  end.
  apply (toggle_loop_ends _ Hb Hd). cbn. lia.
Qed.

Lemma enableTheme_loop_S (fuel : nat) (themes : list string)
    (enabledTheme : string) (st : State) :
  enableTheme_loop (Datatypes.S fuel) themes enabledTheme st
  = match enableTheme_body themes enabledTheme st with
    | Done (Some enabledTheme') st' =>
        enableTheme_loop fuel themes enabledTheme' st'
    | Done None st' => Done tt st'
    | Panic st' => Panic st'
    | Exited st' => Exited st'
    | OutOfFuel => OutOfFuel
    end.
Proof.
  unfold enableTheme_loop at 1. fold enableTheme_loop.
  unfold mbind, M_bind, bind.
  destruct (enableTheme_body themes enabledTheme st) as [[t|] st'| | |];
    reflexivity.
Qed.

Lemma enableTheme_loop_ends (themes : list string) :
  ∀ fuel enabledTheme st,
    length (answers st) < fuel →
    enableTheme_loop fuel themes enabledTheme st ≠ OutOfFuel.
Proof.
  induction fuel as [|fuel IH]; intros enabledTheme st Hlen; [lia|].
  rewrite enableTheme_loop_S, enableTheme_body_eq. cbv zeta.
  destruct (decide (next_choice st = "")) as [|Hne]; [done|].
  destruct (slice_from 4 (next_choice st)); [|done].
  apply IH. cbn. apply next_choice_answers in Hne. lia.
Qed.

(** [enableTheme] ends. *)
Lemma enableTheme_ends (st : State) : enableTheme st ≠ OutOfFuel.
Proof.
  unfold enableTheme, loadThemes, enough_fuel. mstep.
  match goal with |- context [decide (?P)] => destruct (decide P) end;
    mstep; [done|].
  apply enableTheme_loop_ends. cbn. lia.
Qed.

(** The heads of the loop of [toggleModes] are states [toggleModes] runs
    through. *)
Lemma toggleModes_runs_through (n : nat) (st : State) (S : gset string)
    (st' : State) :
  toggleModes_head n st = Some (S, st') →
  ∃ fuel, toggleModes st
          = toggle_loop fuel (toggleModes_body (allModes (rm st))) S st'.
Proof.
  unfold toggleModes_head, toggleModes, enough_fuel. mstep. intros Hit.
  destruct (le_lt_dec n (length (answers st))) as [Hle|Hgt].
  - exists (Datatypes.S (length (answers st)) - n).
    rewrite <- (toggle_loop_iter _ n _ _ _ _ _ Hit). f_equal. lia.
  - exfalso. clear -Hit Hgt.
    assert (Hgen : ∀ n S0 st0,
               length (answers st0) < n →
               toggle_iter (toggleModes_body (allModes (rm st))) n S0 st0 = None).
    { clear. induction n as [|n IH]; intros S0 st0 Hlen; [lia|]. cbn.
      destruct (toggleModes_body _ S0 st0) as [[S1|] st1| | |] eqn:Hb; try done.
      apply toggleModes_body_Some in Hb as (r & Hne & _ & -> & ->).
      apply IH. rewrite answers_toggled.
      apply next_choice_answers in Hne. lia. }
    rewrite Hgen in Hit; [done|]. cbn. lia.
Qed.

End LoopFacts.

(** ** [addScript] and [addTheme] *)

Section AssetFacts.

Context `{IniLibrary} `{MapIteration}.

Local Opaque TrimSpace Split Join HasSuffix FJoin Base slice_from.

Lemma WriteFile_other (w w' : World) (path data : string)
    (werr : option string) (q : string) :
  WriteFile w path data = (w', werr) → q ≠ path →
  files w' !! q = files w !! q.
Proof.
  unfold WriteFile. intros E Hq.
  destruct (decide _); [now injection E as <- _|].
  destruct (decide _); injection E as <- _; [done|].
  cbn. now rewrite lookup_insert_ne.
Qed.

Ltac asset_cases :=
  repeat first
    [ progress mstep
    | match goal with
      | |- context [decide (?a = ?b)] => destruct (decide (a = b))
      | |- context [match os_Stat ?w ?p with _ => _ end] =>
          destruct (os_Stat w p) eqn:?
      | |- context [if negb (HasSuffix ?p ?s) then _ else _] =>
          destruct (HasSuffix p s) eqn:?
      | |- context [bool_decide (?a = ?b)] =>
          destruct (bool_decide_reflect (a = b))
      | |- context [match ReadFile ?w ?p with _ => _ end] =>
          destruct (ReadFile w p) eqn:?
      | |- context [let (_, _) := WriteFile ?w ?p ?d in _] =>
          destruct (WriteFile w p d) as [? [?|]] eqn:?
      end ].


Lemma HasSuffix_ends (b : ascii) (s suffix : string) :
  HasSuffix s suffix = true → ends_with b suffix → ends_with b s.
Proof. intros [p ->]%HasSuffix_spec Hb. now apply ends_with_app. Qed.

Lemma txt_not_sh (path : string) :
  HasSuffix path ".txt" = true → HasSuffix path ".sh" = false ∧ path ≠ "".
Proof.
  intros Ht. pose proof (HasSuffix_ends "t" _ _ Ht ltac:(now exists (bytes ".tx"))) as Hb.
  split.
  - destruct (HasSuffix path ".sh") eqn:Hs; [|done].
    pose proof (HasSuffix_ends "h" _ _ Hs ltac:(now exists (bytes ".s"))) as Hb'.
    now pose proof (ends_with_inj _ _ _ Hb Hb').
  - intros ->. destruct Hb as [p Hp]. now destruct p.
Qed.

End AssetFacts.

Ltac asset_cases :=
  repeat first
    [ progress mstep
    | match goal with
      | |- context [decide (?a = ?b)] => destruct (decide (a = b))
      | |- context [match os_Stat ?w ?p with _ => _ end] =>
          destruct (os_Stat w p) eqn:?
      | |- context [if negb (HasSuffix ?p ?s) then _ else _] =>
          destruct (HasSuffix p s) eqn:?
      | |- context [bool_decide (?a = ?b)] =>
          destruct (bool_decide_reflect (a = b))
      | |- context [match ReadFile ?w ?p with _ => _ end] =>
          destruct (ReadFile w p) eqn:?
      | |- context [let (_, _) := WriteFile ?w ?p ?d in _] =>
          destruct (WriteFile w p d) as [? [?|]] eqn:?
      end ].

(** ** The main loop ends *)

Section RunFacts.

Context `{IniLibrary} `{MapIteration}.

Local Opaque TrimSpace Split Join HasSuffix FJoin Base slice_from.

Lemma tl_length_le {A} (l : list A) : length (tl l) ≤ length l.
Proof. destruct l; cbn; lia. Qed.

Lemma showInfo_settles (message : string) : settles (showInfo message).
Proof.
  intros st. rewrite showInfo_eq. split; [done|].
  intros st' [= <-]. cbn. apply tl_length_le.
Qed.

Lemma toggle_loop_settles (body : gset string → M (option (gset string))) :
  (∀ S st, body S st ≠ OutOfFuel) →
  (∀ S st S' st', body S st = Done (Some S') st' →
                  length (answers st') < length (answers st)) →
  (∀ S st st', body S st = Done None st' →
               length (answers st') ≤ length (answers st)) →
  ∀ fuel S st st',
    toggle_loop fuel body S st = Done tt st' →
    length (answers st') ≤ length (answers st).
Proof.
  intros _ Hdec Hlast. induction fuel as [|fuel IH]; intros S st st'; [done|].
  rewrite toggle_loop_S.
  destruct (body S st) as [[S1|] st1| | |] eqn:Hb; try done.
  - intros Hl. apply IH in Hl. specialize (Hdec _ _ _ _ Hb). lia.
  - intros [= <-]. eauto.
Qed.

Lemma toggle_body_last (prompt sec : string) (names : list string)
    (S : gset string) (st st' : State) :
  toggle_body prompt names
    (fun l => key_SetValue sec "enabled" (Join l ",");; saveConfig) S st
  = Done None st' →
  length (answers st') ≤ length (answers st).
Proof.
  rewrite toggle_body_eq. cbv zeta.
  destruct (decide (next_choice st = "")); [|now destruct (slice_from 4 _)].
  intros [= <-]. cbn. apply tl_length_le.
Qed.

Lemma toggleModes_settles : settles toggleModes.
Proof.
  intros st. split; [apply toggleModes_ends|].
  unfold toggleModes, enough_fuel. mstep. intros st' Hl.
  destruct (toggle_body_ends "Toggle modes (Enter to finish)" "modes"
              (allModes (rm st))) as [Hb Hd].
  apply (toggle_loop_settles _ Hb Hd) in Hl; [exact Hl|].
  intros ? ? ?. apply toggle_body_last.
Qed.

Lemma enableScript_settles : settles enableScript.
Proof.
  intros st. split; [apply enableScript_ends|].
  unfold enableScript, loadScripts, enough_fuel. mstep.
  match goal with |- context [decide (?P)] => destruct (decide P) end; mstep.
  - intros st' [= <-]. cbn. apply tl_length_le.
  - intros st' Hl.
    match type of Hl with
    | toggle_loop _ (enableScript_body ?scripts) _ _ = _ =>
        destruct (toggle_body_ends "Toggle scripts (Enter to finish)" "scripts"
                    scripts) as [Hb Hd]
    end.
    apply (toggle_loop_settles _ Hb Hd) in Hl; [exact Hl|].
    intros ? ? ?. apply toggle_body_last.
Qed.

Lemma enableTheme_loop_settles (themes : list string) :
  ∀ fuel enabledTheme st st',
    enableTheme_loop fuel themes enabledTheme st = Done tt st' →
    length (answers st') ≤ length (answers st).
Proof.
  induction fuel as [|fuel IH]; intros enabledTheme st st'; [done|].
  rewrite enableTheme_loop_S, enableTheme_body_eq. cbv zeta.
  destruct (decide (next_choice st = "")) as [|Hne].
  - intros [= <-]. cbn. apply tl_length_le.
  - destruct (slice_from 4 (next_choice st)); [|done].
    intros Hl. apply IH in Hl. cbn in Hl.
    pose proof (tl_length_le (answers st)). lia.
Qed.

Lemma enableTheme_settles : settles enableTheme.
Proof.
  intros st. split; [apply enableTheme_ends|].
  unfold enableTheme, loadThemes, enough_fuel. mstep.
  match goal with |- context [decide (?P)] => destruct (decide P) end; mstep.
  - intros st' [= <-]. cbn. apply tl_length_le.
  - intros st' Hl. now apply enableTheme_loop_settles in Hl.
Qed.

Lemma add_asset_settles (prompt suffix message : string)
    (dir : RofiManager → string) :
  settles (add_asset prompt suffix message dir).
Proof.
  intros st. unfold add_asset. asset_cases.
  all: split; [done|]; intros st' [= <-]; cbn.
  all: destruct (answers st) as [|? [|? [|? ?]]]; cbn; lia.
Qed.

Lemma selectMode_settles : settles selectMode.
Proof.
  intros st. unfold selectMode, launch, record_call, os_Exit. mstep.
  match goal with |- context [decide (?P)] => destruct (decide P) end; mstep.
  - split; [done|]. intros st' [= <-]. cbn. apply tl_length_le.
  - destruct (List.find _ _); mstep; (split; [done|]); [done|].
    intros st' [= <-]. cbn. apply tl_length_le.
Qed.

(** After a sub-workflow that settles, the loop goes on with fewer
    answers than the iteration started with. *)
Lemma run_loop_ends :
  ∀ fuel st, length (answers st) < fuel → run_loop fuel st ≠ OutOfFuel.
Proof.
  induction fuel as [|fuel IH]; intros st Hlen; [lia|].
  unfold run_loop; fold run_loop. mstep.
  assert (Hstep : ∀ (m : M unit), settles m → next_choice st ≠ "" →
            match m (after_menu (menu_call "Rofi Manager" mainOptions
                                   (persisted_theme st)
                                   (touch "theme" "enabled" st))
                                (touch "theme" "enabled" st)) with
            | Done _ st' => run_loop fuel st'
            | Panic st' => Panic st'
            | Exited st' => Exited st'
            | OutOfFuel => OutOfFuel
            end ≠ OutOfFuel).
  { intros m Hm Hne. destruct (m _) as [[] st'| | |] eqn:Em; try done.
    - apply IH. apply Hm in Em. cbn in Em.
      apply next_choice_answers in Hne. lia.
    - now apply Hm in Em. }
  change (next_choice (touch "theme" "enabled" st)) with (next_choice st).
  repeat match goal with
         | |- context [String.eqb (next_choice st) ?s] =>
             destruct (String.eqb_spec (next_choice st) s) as [E|?];
             [try (apply Hstep; [|rewrite E; done])|]
         end.
  - apply selectMode_settles.
  - apply toggleModes_settles.
  - apply enableScript_settles.
  - apply enableTheme_settles.
  - apply add_asset_settles.
  - apply add_asset_settles.
  - done.
  - done.
  - cbn. apply IH. cbn.
    assert (Hne : next_choice st ≠ "") by done.
    apply next_choice_answers in Hne. lia.
Qed.

(** [run] ends: it returns, panics in a slice, or exits the process. *)
Lemma run_ends (st : State) : run st ≠ OutOfFuel.
Proof.
  unfold run, enough_fuel. mstep. apply run_loop_ends. lia.
Qed.

End RunFacts.

(** * The properties of the specification *)

Section Properties.

Context `{IniLibrary} `{MapIteration}.

Local Opaque TrimSpace Split Join HasSuffix FJoin Base slice_from.






(** C6, amended.  When the path given to [addScript] ends in [.txt], no
    file is copied: the file system stays as it is.  If the path names
    something, the operation is rejected with the message "File must end
    with .sh"; if it names nothing, with the message "File does not
    exist.". *)
Theorem addScript_rejects_txt (st : State) :
  let path := next_choice st in
  let st1 := after_menu (menu_call "Path to script (.sh)" [""]
                           (persisted_theme st) (touch "theme" "enabled" st))
                        (touch "theme" "enabled" st) in
  let message := match os_Stat (fs st) path with
                 | StatNotExist => "File does not exist."
                 | _ => "File must end with .sh"
                 end in
  HasSuffix path ".txt" = true →
  ∃ st',
    addScript st = Done tt st'
    ∧ fs st' = fs st
    ∧ calls st'
      = calls st
        ++ [menu_call "Path to script (.sh)" [""] (persisted_theme st)
                      (touch "theme" "enabled" st);
            info_call message st1].
Proof.
  intros path st1 message Htxt. subst path st1 message.
  destruct (txt_not_sh _ Htxt) as [Hsh Hne].
  unfold addScript, add_asset. mstep.
  change (next_choice (touch "theme" "enabled" st)) with (next_choice st).
  rewrite decide_False by done. cbn.
  destruct (os_Stat (fs st) (next_choice st)); rewrite ?Hsh; mstep;
    (eexists; split; [reflexivity|]; split; [reflexivity|]);
    cbn; now rewrite <- app_assoc.
Qed.

(** C7.  When the path given to [addScript] names something and ends in
    [.sh], a file of its base name is in the scripts directory already,
    and the answer to the question whether to overwrite it is not "Yes",
    [addScript] returns without writing: the file system, and with it the
    scripts directory, stays as it is. *)
Theorem addScript_overwrite_declined (st : State) (out1 out2 : string)
    (rest : list string) :
  let path := TrimSpace out1 in
  let dest := FJoin [scriptsDir (rm st); Base path] in
  answers st = out1 :: out2 :: rest →
  os_Stat (fs st) path ≠ StatNotExist →
  HasSuffix path ".sh" = true →
  os_Stat (fs st) dest = StatOk →
  TrimSpace out2 ≠ "Yes" →
  ∃ st',
    addScript st = Done tt st'
    ∧ fs st' = fs st
    ∧ answers st' = rest
    ∧ ReadDir (fs st') (scriptsDir (rm st')) = ReadDir (fs st) (scriptsDir (rm st))
    ∧ value (loadScripts st') = value (loadScripts st).
Proof.
  intros path dest Hans Hexists Hsh Hdest Hno. subst path dest.
  pose proof (next_choice_cons st _ _ Hans) as Hc.
  assert (Hne : TrimSpace out1 ≠ "").
  { intros E. rewrite E in Hsh. apply HasSuffix_spec in Hsh as [p Hp].
    apply (f_equal bytes) in Hp. rewrite bytes_app in Hp.
    now destruct (bytes p). }
  unfold addScript, add_asset. mstep.
  change (next_choice (touch "theme" "enabled" st)) with (next_choice st).
  rewrite Hc, decide_False by done. cbn.
  destruct (os_Stat (fs st) (TrimSpace out1)) eqn:Es; [|done|];
    rewrite Hsh; cbn; rewrite Hdest; mstep; unfold next_choice; cbn;
    rewrite Hans; cbn; rewrite bool_decide_eq_false_2 by done;
    (eexists; split; [reflexivity|]); repeat split;
    cbn; now rewrite Hans.
Qed.

(** C8, amended.  When the enabled modes of the configuration are among
    the six modes, as the ones of the default configuration are, and every
    answer to the menu of [toggleModes] is one of the entries of the six
    modes, then at the head of every iteration the modes that
    [getEnabledModes] reads from the configuration, and the names in the
    set of the loop, are among the six modes. *)
Theorem modes_stay_in_vocabulary (st0 : State) (n : nat)
    (S : gset string) (st : State) :
  allModes (rm st0) = six_modes →
  Forall (.∈ six_modes) (persisted_modes st0) →
  Forall (picks_from six_modes) (take n (answers st0)) →
  toggleModes_head n st0 = Some (S, st) →
  value (getEnabledModes st) = Some (persisted_modes st)
  ∧ Forall (.∈ six_modes) (persisted_modes st)
  ∧ (∀ m, m ∈ S → m ∈ six_modes)
  ∧ Forall (.∈ six_modes)
           (enabled_names (ini_String default_config "modes" "enabled")).
Proof.
  intros Hmodes Hinit Hans Hhead. unfold toggleModes_head in Hhead.
  rewrite getEnabledModes_eq in Hhead.
  change (allModes (rm (touch "modes" "enabled" st0)))
    with (allModes (rm st0)) in Hhead.
  pose proof six_modes_good as Hgood. rewrite Forall_forall in Hgood.
  assert (HI : modes_synced S st ∧ ∀ m, m ∈ S → m ∈ six_modes).
  { refine (toggle_iter_invariant _ (.∈ six_modes)
              (fun S st => modes_synced S st ∧ ∀ m, m ∈ S → m ∈ six_modes) _
              n _ _ _ _ _ _ Hhead).
    - intros S1 st1 name [Hsync Hsub] Hname. split.
      + apply modes_synced_step; [done|]. now destruct (Hgood _ Hname) as [[_ ?] _].
      + intros m Hm. apply elem_of_flip in Hm as [[Hm _]|[-> _]]; auto.
    - split; [apply modes_synced_init|]. intros m Hm.
      apply elem_of_list_to_set in Hm. rewrite Forall_forall in Hinit. auto.
    - eapply Forall_impl; [exact Hans|]. intros out Hout name Hname.
      refine (toggled_name_picks _ _ _ _ Hout Hname).
      apply Forall_forall. intros m Hm. now destruct (Hgood _ Hm) as [[_ [_ ?]] _]. }
  destruct HI as [[_ Hp] Hsub]. split; [reflexivity|]. split; [|split; [exact Hsub|]].
  - apply Forall_forall. intros m Hm. apply Hp in Hm as [Hm _]. auto.
  - vm_compute. repeat constructor.
Qed.

(** C9.  In [toggleModes], [enableScript] and [enableTheme], when the menu
    returns a non-empty choice that is one of the options displayed, the
    slice [choice[4:]] is in bounds, and the iteration of the loop ends
    without a panic and goes on to the next one. *)
Theorem choice_slice_in_bounds (st : State) :
  next_choice st ≠ "" →
  (∀ names S, next_choice st ∈ toggle_options names S →
     is_Some (slice_from 4 (next_choice st))
     ∧ (∃ S' st', toggleModes_body names S st = Done (Some S') st')
     ∧ (∃ S' st', enableScript_body names S st = Done (Some S') st'))
  ∧ (∀ themes enabledTheme,
       next_choice st ∈ theme_options themes enabledTheme →
       is_Some (slice_from 4 (next_choice st))
       ∧ ∃ t' st', enableTheme_body themes enabledTheme st = Done (Some t') st').
Proof.
  intros Hne. split.
  - intros names S Hin.
    apply elem_of_toggle_options in Hin as (name & _ & Hc).
    pose proof (checkbox_slice (bool_decide (name ∈ S)) name) as Hs.
    rewrite <- Hc in Hs. split; [rewrite Hs; eauto|]. split.
    + rewrite toggleModes_body_eq. cbv zeta.
      rewrite decide_False by done. rewrite Hs. eauto.
    + rewrite enableScript_body_eq. cbv zeta.
      rewrite decide_False by done. rewrite Hs. eauto.
  - intros themes enabledTheme Hin.
    apply elem_of_theme_options in Hin as (name & _ & Hc).
    pose proof (checkbox_slice (bool_decide (name = enabledTheme)) name) as Hs.
    rewrite <- Hc in Hs. split; [rewrite Hs; eauto|].
    rewrite enableTheme_body_eq. cbv zeta.
    rewrite decide_False by done. rewrite Hs. eauto.
Qed.


End Properties.

(** * The properties on concrete runs *)

Section Runs.

Import ReferenceIni Examples.









Lemma addScript_rejects_txt_witness :
  let st := fresh_with [("/tmp/notes.txt", "notes")] ["/tmp/notes.txt"] in
  let st1 := after_menu (menu_call "Path to script (.sh)" [""]
                           (persisted_theme st) (touch "theme" "enabled" st))
                        (touch "theme" "enabled" st) in
  ∃ st',
    addScript st = Done tt st'
    ∧ fs st' = fs st
    ∧ calls st'
      = calls st
        ++ [menu_call "Path to script (.sh)" [""] (persisted_theme st)
                      (touch "theme" "enabled" st);
            info_call "File must end with .sh" st1].
Proof.
  intros st st1.
  refine (addScript_rejects_txt st _). reflexivity.
Defined.

(** C6 as stated fails on a path that ends in [.txt] and names nothing:
    the message is "File does not exist.". *)
Lemma addScript_txt_missing_file :
  let st := fresh ["/tmp/notes.txt"] in
  HasSuffix (next_choice st) ".txt" = true
  ∧ rofi_args <$> new_calls (addScript st) st
    = [["-dmenu"; "-p"; "Path to script (.sh)"];
       ["-dmenu"; "-p"; "File does not exist."]].
Proof. split; vm_compute; reflexivity. Qed.

Lemma addScript_overwrite_declined_witness :
  let st := fresh_with
              [("/tmp/backup.sh", "new");
               ("/home/u/.config/rofi-manager/scripts/backup.sh", "old")]
              ["/tmp/backup.sh"; "No"] in
  ∃ st',
    addScript st = Done tt st'
    ∧ fs st' = fs st
    ∧ answers st' = []
    ∧ ReadDir (fs st') (scriptsDir (rm st')) = ReadDir (fs st) (scriptsDir (rm st))
    ∧ value (loadScripts st') = value (loadScripts st).
Proof.
  intros st.
  refine (addScript_overwrite_declined st "/tmp/backup.sh" "No" [] _ _ _ _ _).
  - reflexivity.
  - vm_compute. discriminate.
  - reflexivity.
  - vm_compute. reflexivity.
  - vm_compute. discriminate.
Defined.

Lemma modes_stay_in_vocabulary_witness :
  let st0 := fresh ["[ ] ssh"; "[x] run"] in
  ∃ S st,
    toggleModes_head 2 st0 = Some (S, st)
    ∧ value (getEnabledModes st) = Some (persisted_modes st)
    ∧ Forall (.∈ six_modes) (persisted_modes st)
    ∧ (∀ m, m ∈ S → m ∈ six_modes)
    ∧ Forall (.∈ six_modes)
             (enabled_names (ini_String default_config "modes" "enabled")).
Proof.
  intros st0. destruct (toggleModes_head 2 st0) as [[S st]|] eqn:E.
  - exists S, st. split; [reflexivity|].
    apply (modes_stay_in_vocabulary st0 2 S st).
    + reflexivity.
    + vm_compute. repeat constructor.
    + repeat constructor.
      * exists false, "ssh". split; [repeat constructor | reflexivity].
      * exists true, "run". split; [repeat constructor | reflexivity].
    + exact E.
  - vm_compute in E. discriminate.
Defined.

(** C8 as stated fails: [getEnabledModes] returns whatever names the
    configuration file holds, and [toggleModes] writes whatever name is
    typed into its menu. *)
Lemma unknown_mode_enabled :
  let w := {| files := {["/home/u/.config/rofi-manager/config.conf" :=
                          "[modes]" +:+ nl +:+ "enabled = foo" +:+ nl]};
              dirs := ∅; denied := ∅; readonly := ∅ |} in
  (final (NewRofiManager home w []) ≫= fun st => value (getEnabledModes st))
  = Some ["foo"]
  ∧ ("foo" ∉ six_modes)
  ∧ persisted_modes <$> final (toggleModes (fresh ["[ ] foo"]))
    = Some ["window"; "foo"; "run"; "drun"].
Proof.
  intros w. split; [|split].
  - vm_compute. reflexivity.
  - unfold six_modes. rewrite !not_elem_of_cons. repeat split; try discriminate.
    apply not_elem_of_nil.
  - vm_compute. reflexivity.
Qed.

Lemma choice_slice_in_bounds_witness :
  let st := fresh ["[x] run"] in
  next_choice st ≠ ""
  ∧ (∀ names S, next_choice st ∈ toggle_options names S →
       is_Some (slice_from 4 (next_choice st))
       ∧ (∃ S' st', toggleModes_body names S st = Done (Some S') st')
       ∧ (∃ S' st', enableScript_body names S st = Done (Some S') st'))
  ∧ (∀ themes enabledTheme,
       next_choice st ∈ theme_options themes enabledTheme →
       is_Some (slice_from 4 (next_choice st))
       ∧ ∃ t' st', enableTheme_body themes enabledTheme st = Done (Some t') st').
Proof.
  intros st.
  assert (Hne : next_choice st ≠ "") by (vm_compute; discriminate).
  split; [exact Hne|]. exact (choice_slice_in_bounds st Hne).
Defined.

End Runs.

(** * Further properties of the program *)

Section MoreProperties.

Context `{IniLibrary} `{MapIteration}.

Local Opaque TrimSpace Split Join HasSuffix FJoin Base slice_from.

(** X1.  With no script in the scripts directory, [enableScript] shows the
    one message "No scripts found." and returns; with no theme in the
    themes directory, [enableTheme] shows "No themes found." and returns.
    Neither reads an answer but the one to the message, writes a file or
    changes a setting. *)
Theorem workflows_without_assets (st : State) :
  (value (loadScripts st) = Some [] →
   ∃ st', enableScript st = Done tt st'
          ∧ calls st' = calls st ++ [info_call "No scripts found." st]
          ∧ answers st' = tl (answers st)
          ∧ fs st' = fs st
          ∧ settings (config (rm st')) = settings (config (rm st)))
  ∧ (value (loadThemes st) = Some [] →
     ∃ st', enableTheme st = Done tt st'
            ∧ calls st' = calls st ++ [info_call "No themes found." st]
            ∧ answers st' = tl (answers st)
            ∧ fs st' = fs st
            ∧ settings (config (rm st')) = settings (config (rm st))).
Proof.
  split.
  - unfold loadScripts, enableScript. mstep. intros [= E].
    unfold loadScripts. mstep. rewrite E. cbn. mstep.
    eexists. split; [reflexivity|]. cbn. rewrite settings_Key. repeat split.
  - unfold loadThemes, enableTheme. mstep. intros [= E].
    unfold loadThemes. mstep. rewrite E. cbn. mstep.
    eexists. split; [reflexivity|]. cbn. rewrite settings_Key. repeat split.
Qed.

Lemma find_eqb_elem (choice : string) (l : list string) :
  choice ∈ l → List.find (fun mode => String.eqb choice mode) l = Some choice.
Proof.
  induction l as [|x l IH]; [now intros ?%elem_of_nil|].
  intros [->|Hin]%elem_of_cons; cbn.
  - now rewrite String.eqb_refl.
  - destruct (String.eqb_spec choice x) as [->|_]; [reflexivity | now apply IH].
Qed.

Lemma find_eqb_not_elem (choice : string) (l : list string) :
  choice ∉ l → List.find (fun mode => String.eqb choice mode) l = None.
Proof.
  induction l as [|x l IH]; [reflexivity|].
  intros [Hne Hl]%not_elem_of_cons. cbn.
  destruct (String.eqb_spec choice x) as [->|_]; [done | now apply IH].
Qed.

(** X2.  With no enabled mode, [selectMode] shows the message "No modes
    enabled." and returns: nothing is launched and the program does not
    exit. *)
Theorem selectMode_without_modes (st : State) :
  persisted_modes st = [] →
  ∃ st', selectMode st = Done tt st'
         ∧ calls st' = calls st ++ [info_call "No modes enabled." st]
         ∧ fs st' = fs st
         ∧ settings (config (rm st')) = settings (config (rm st)).
Proof.
  intros E. unfold selectMode. mstep. rewrite E. cbn. mstep.
  eexists. split; [reflexivity|].
  unfold info_call, menu_call, persisted_theme. cbn.
  rewrite !settings_Key, ?ini_String_Key. repeat split.
Qed.

(** X3.  With enabled modes, [selectMode] shows them in one menu.  When
    the answer is one of them, [rofi -show] is run for that mode (with the
    theme file when there is one) and the program exits; any other answer,
    a dismissed menu included, makes [selectMode] return.  No file is
    written and no setting changes either way. *)
Theorem selectMode_launches_choice (st : State) :
  persisted_modes st ≠ [] →
  let menu := menu_call "Select mode" (persisted_modes st)
                        (persisted_theme st) st in
  let show := {| rofi_args := ["-show"; next_choice st]
                              ++ theme_args st (persisted_theme st);
                 rofi_stdin := "" |} in
  (next_choice st ∈ persisted_modes st →
   ∃ st', selectMode st = Exited st'
          ∧ calls st' = calls st ++ [menu; show]
          ∧ fs st' = fs st
          ∧ settings (config (rm st')) = settings (config (rm st)))
  ∧ (next_choice st ∉ persisted_modes st →
     ∃ st', selectMode st = Done tt st'
            ∧ calls st' = calls st ++ [menu]
            ∧ fs st' = fs st
            ∧ settings (config (rm st')) = settings (config (rm st))).
Proof.
  intros Hne menu show. subst menu show.
  assert (Hlen : length (persisted_modes st) ≠ 0) by now destruct (persisted_modes st).
  split; intros Hin; unfold selectMode, launch, record_call, os_Exit; mstep;
    rewrite decide_False by done; mstep;
    change (next_choice (touch "theme" "enabled" (touch "modes" "enabled" st)))
      with (next_choice st).
  - rewrite (find_eqb_elem _ _ Hin). mstep.
    eexists. split; [reflexivity|].
    unfold menu_call, persisted_theme. cbn.
    rewrite !settings_Key, ?ini_String_Key, <- app_assoc. repeat split.
  - rewrite (find_eqb_not_elem _ _ Hin). mstep.
    eexists. split; [reflexivity|].
    unfold menu_call, persisted_theme. cbn.
    rewrite !settings_Key, ?ini_String_Key. repeat split.
Qed.

(** ** The main loop *)

Lemma run_loop_S (fuel : nat) (st : State) :
  let st1 := after_menu (menu_call "Rofi Manager" mainOptions
                           (persisted_theme st) st)
                        (touch "theme" "enabled" st) in
  let next (m : M unit) :=
    match m st1 with
    | Done _ st' => run_loop fuel st'
    | Panic st' => Panic st'
    | Exited st' => Exited st'
    | OutOfFuel => OutOfFuel
    end in
  run_loop (Datatypes.S fuel) st
  = if String.eqb (next_choice st) "Select Mode" then next selectMode
    else if String.eqb (next_choice st) "Enable/Disable Modes" then next toggleModes
    else if String.eqb (next_choice st) "Enable Script" then next enableScript
    else if String.eqb (next_choice st) "Enable Theme" then next enableTheme
    else if String.eqb (next_choice st) "Add Script" then next addScript
    else if String.eqb (next_choice st) "Add Theme" then next addTheme
    else if String.eqb (next_choice st) "Exit" || String.eqb (next_choice st) ""
         then Done tt st1
    else run_loop fuel st1.
Proof.
  intros st1 next. subst st1 next. unfold run_loop at 1; fold run_loop. mstep.
  change (next_choice (touch "theme" "enabled" st)) with (next_choice st).
  repeat match goal with
         | |- context [String.eqb (next_choice st) ?s] =>
             destruct (String.eqb (next_choice st) s)
         end; reflexivity.
Qed.

(** With enough fuel the loop does the same whatever the fuel. *)
Lemma run_loop_fuel :
  ∀ fuel1 fuel2 st,
    length (answers st) < fuel1 → length (answers st) < fuel2 →
    run_loop fuel1 st = run_loop fuel2 st.
Proof.
  induction fuel1 as [|fuel1 IH]; intros fuel2 st H1 H2; [lia|].
  destruct fuel2 as [|fuel2]; [lia|].
  rewrite !run_loop_S. cbv zeta.
  assert (Hstep : ∀ (m : M unit), settles m → next_choice st ≠ "" →
            ∀ st1, answers st1 = tl (answers st) →
            match m st1 with
            | Done _ st' => run_loop fuel1 st'
            | Panic st' => Panic st'
            | Exited st' => Exited st'
            | OutOfFuel => OutOfFuel
            end
            = match m st1 with
              | Done _ st' => run_loop fuel2 st'
              | Panic st' => Panic st'
              | Exited st' => Exited st'
              | OutOfFuel => OutOfFuel
              end).
  { intros m Hm Hne st1 E1. destruct (m st1) as [[] st'| | |] eqn:Em; try done.
    apply Hm in Em. rewrite E1 in Em. apply next_choice_answers in Hne.
    apply IH; lia. }
  repeat match goal with
         | |- context [String.eqb (next_choice st) ?s] =>
             destruct (String.eqb_spec (next_choice st) s) as [E|?];
             [try (apply Hstep; [|rewrite E; done|reflexivity])|]
         end.
  - apply selectMode_settles.
  - apply toggleModes_settles.
  - apply enableScript_settles.
  - apply enableTheme_settles.
  - apply add_asset_settles.
  - apply add_asset_settles.
  - done.
  - done.
  - cbn. assert (Hne : next_choice st ≠ "") by done.
    apply next_choice_answers in Hne. apply IH; cbn; lia.
Qed.

(** The workflow an entry of the main menu stands for. *)
Lemma run_continues (st : State) (m : M unit) :
  settles m → next_choice st ≠ "" →
  let st1 := after_menu (menu_call "Rofi Manager" mainOptions
                           (persisted_theme st) st)
                        (touch "theme" "enabled" st) in
  match m st1 with
  | Done _ st' => run_loop (length (answers st)) st'
  | Panic st' => Panic st'
  | Exited st' => Exited st'
  | OutOfFuel => OutOfFuel
  end
  = (m;; run) st1.
Proof.
  intros Hm Hne st1. unfold mbind, M_bind, bind.
  destruct (m st1) as [[] st'| | |] eqn:Em; try done.
  unfold run, enough_fuel. mstep.
  apply Hm in Em. cbn in Em. apply next_choice_answers in Hne.
  apply run_loop_fuel; lia.
Qed.

(** X4.  [run] shows the main menu with its seven entries.  The answer
    "Exit" and a dismissed menu end it at once, with no file written and no
    setting changed.  The answer of one of the six other entries runs the
    workflow of the entry and then [run] again, from the main menu; any
    other answer shows the main menu again. *)
Theorem run_dispatches (st : State) :
  let st1 := after_menu (menu_call "Rofi Manager" mainOptions
                           (persisted_theme st) st)
                        (touch "theme" "enabled" st) in
  rofi_stdin (menu_call "Rofi Manager" mainOptions (persisted_theme st) st)
  = Join ["Select Mode"; "Enable/Disable Modes"; "Enable Script";
          "Enable Theme"; "Add Script"; "Add Theme"; "Exit"] nl
  ∧ (next_choice st = "Exit" ∨ next_choice st = "" → run st = Done tt st1)
  ∧ (next_choice st = "Select Mode" → run st = (selectMode;; run) st1)
  ∧ (next_choice st = "Enable/Disable Modes" → run st = (toggleModes;; run) st1)
  ∧ (next_choice st = "Enable Script" → run st = (enableScript;; run) st1)
  ∧ (next_choice st = "Enable Theme" → run st = (enableTheme;; run) st1)
  ∧ (next_choice st = "Add Script" → run st = (addScript;; run) st1)
  ∧ (next_choice st = "Add Theme" → run st = (addTheme;; run) st1)
  ∧ (next_choice st ∉ "" :: mainOptions → run st = run st1).
Proof.
  intros st1.
  assert (Hrun : run st = run_loop (Datatypes.S (length (answers st))) st).
  { unfold run, enough_fuel. now mstep. }
  split; [reflexivity|].
  repeat split; intros E; rewrite Hrun, run_loop_S; cbv zeta.
  - destruct E as [-> | ->]; reflexivity.
  - rewrite E. cbn [String.eqb Ascii.eqb Bool.eqb andb orb].
    apply run_continues; [apply selectMode_settles | now rewrite E].
  - rewrite E. cbn [String.eqb Ascii.eqb Bool.eqb andb orb].
    apply run_continues; [apply toggleModes_settles | now rewrite E].
  - rewrite E. cbn [String.eqb Ascii.eqb Bool.eqb andb orb].
    apply run_continues; [apply enableScript_settles | now rewrite E].
  - rewrite E. cbn [String.eqb Ascii.eqb Bool.eqb andb orb].
    apply run_continues; [apply enableTheme_settles | now rewrite E].
  - rewrite E. cbn [String.eqb Ascii.eqb Bool.eqb andb orb].
    apply run_continues; [apply add_asset_settles | now rewrite E].
  - rewrite E. cbn [String.eqb Ascii.eqb Bool.eqb andb orb].
    apply run_continues; [apply add_asset_settles | now rewrite E].
  - unfold mainOptions in E. rewrite !not_elem_of_cons in E.
    destruct E as (E0 & E1 & E2 & E3 & E4 & E5 & E6 & E7 & _).
    repeat match goal with
           | |- context [String.eqb (next_choice st) ?s] =>
               destruct (String.eqb_spec (next_choice st) s) as [?|_]; [done|]
           end.
    cbn. unfold run, enough_fuel. mstep.
    assert (Hne : next_choice st ≠ "") by done.
    apply next_choice_answers in Hne. apply run_loop_fuel; cbn; lia.
Qed.

(** X5.  The loops end.  On every script of answers [toggleModes],
    [enableScript], [enableTheme], [run] and [main] come to an end (a
    return, a panic or the exit of the process): every iteration that goes
    on to the next one has consumed an answer. *)
Theorem workflows_end :
  (∀ st, toggleModes st ≠ OutOfFuel)
  ∧ (∀ st, enableScript st ≠ OutOfFuel)
  ∧ (∀ st, enableTheme st ≠ OutOfFuel)
  ∧ (∀ st, run st ≠ OutOfFuel)
  ∧ (∀ home w outs, main home w outs ≠ OutOfFuel).
Proof.
  split; [apply toggleModes_ends|]. split; [apply enableScript_ends|].
  split; [apply enableTheme_ends|]. split; [apply run_ends|].
  intros home w outs. unfold main, NewRofiManager, mbind, M_bind, bind.
  rewrite ensureConfigDirs_eq. cbv beta iota zeta. rewrite loadConfig_eq.
  destruct (ini_Load _ _); apply run_ends.
Qed.

(** ** The settings store *)

(** X6.  Whatever the configuration holds, the names [getEnabledModes] and
    [getEnabledScripts] return are not empty, contain no comma and have no
    white space around them. *)
Theorem getters_return_valid_names (st : State) :
  (∃ modes st', getEnabledModes st = Done modes st' ∧ Forall valid_name modes)
  ∧ (∃ scripts st',
       getEnabledScripts st = Done scripts st' ∧ Forall valid_name scripts).
Proof.
  split; eexists _, _.
  - rewrite getEnabledModes_eq. split; [reflexivity|]. apply enabled_names_valid.
  - rewrite getEnabledScripts_eq. split; [reflexivity|]. apply enabled_names_valid.
Qed.

Lemma touch_reads (sec key : string) (st : State) :
  fs (touch sec key st) = fs st
  ∧ answers (touch sec key st) = answers st
  ∧ calls (touch sec key st) = calls st
  ∧ (∀ sec' key', ini_String (config (rm (touch sec key st))) sec' key'
                  = ini_String (config (rm st)) sec' key')
  ∧ (config (rm st) !! (sec, key) = None →
     ini_String (config (rm st)) sec key = ""
     ∧ config (rm (touch sec key st)) !! (sec, key) = Some "").
Proof.
  split; [reflexivity|]. split; [reflexivity|]. split; [reflexivity|].
  split; [intros sec' key'; cbn; apply ini_String_Key|].
  intros E. split.
  - unfold ini_String. now rewrite E.
  - cbn. unfold ini_Key. rewrite E. apply lookup_insert_eq.
Qed.

(** X7.  Reading a setting changes nothing one can read: the three getters
    leave the file system, the answers and the calls as they are, and every
    key of the configuration reads afterwards as it read before.  A key
    that is missing reads as empty (no mode, no script, no theme) and is in
    the configuration afterwards, with the empty value. *)
Theorem getters_read_only (st : State) :
  let unchanged (st' : State) :=
    fs st' = fs st ∧ answers st' = answers st ∧ calls st' = calls st
    ∧ ∀ sec key, ini_String (config (rm st')) sec key
                 = ini_String (config (rm st)) sec key in
  (∃ modes st', getEnabledModes st = Done modes st' ∧ unchanged st'
     ∧ (config (rm st) !! ("modes", "enabled") = None →
        modes = [] ∧ config (rm st') !! ("modes", "enabled") = Some ""))
  ∧ (∃ scripts st', getEnabledScripts st = Done scripts st' ∧ unchanged st'
       ∧ (config (rm st) !! ("scripts", "enabled") = None →
          scripts = [] ∧ config (rm st') !! ("scripts", "enabled") = Some ""))
  ∧ (∃ theme st', getEnabledTheme st = Done theme st' ∧ unchanged st'
       ∧ (config (rm st) !! ("theme", "enabled") = None →
          theme = "" ∧ config (rm st') !! ("theme", "enabled") = Some "")).
Proof.
  intros unchanged. subst unchanged. cbv beta.
  split; [|split]; eexists _, _.
  - rewrite getEnabledModes_eq. split; [reflexivity|].
    destruct (touch_reads "modes" "enabled" st) as (? & ? & ? & ? & Hmiss).
    split; [done|]. intros E. destruct (Hmiss E) as [Hv ?].
    unfold persisted_modes. rewrite Hv. done.
  - rewrite getEnabledScripts_eq. split; [reflexivity|].
    destruct (touch_reads "scripts" "enabled" st) as (? & ? & ? & ? & Hmiss).
    split; [done|]. intros E. destruct (Hmiss E) as [Hv ?].
    unfold persisted_scripts. rewrite Hv. done.
  - rewrite getEnabledTheme_eq. split; [reflexivity|].
    destruct (touch_reads "theme" "enabled" st) as (? & ? & ? & ? & Hmiss).
    split; [done|]. intros E. destruct (Hmiss E) as [Hv ?]. done.
Qed.

Lemma WriteFile_refused (w : World) (path data : string) :
  ¬ writable w path → fst (WriteFile w path data) = w.
Proof.
  unfold writable, WriteFile. intros Hn.
  destruct (decide (path ∈ denied w ∨ path ∈ readonly w)); [done|].
  destruct (decide (path ∈ dirs w)); [done|]. exfalso. apply Hn. tauto.
Qed.

Lemma saved_refused (st : State) :
  ¬ writable (fs st) (configPath (rm st)) → fs (saved st) = fs st.
Proof. intros Hn. unfold saved, ini_SaveTo. cbn. now apply WriteFile_refused. Qed.

(** X8.  A setter changes its own setting and no other, in memory, whether
    or not the file can be written; it shows nothing.  Where the file can
    be written it holds the text of the new configuration afterwards; where
    it cannot, the file system stays as it is and the error is dropped:
    memory and file then differ. *)
Theorem setters_update_memory_then_file (st : State) (modes scripts : list string)
    (theme : string) :
  let persisted (st' : State) :=
    (writable (fs st) (configPath (rm st)) →
     files (fs st') !! configPath (rm st) = Some (ini_render (config (rm st'))))
    ∧ (¬ writable (fs st) (configPath (rm st)) → fs st' = fs st)
    ∧ calls st' = calls st ∧ answers st' = answers st in
  let '(m, s, t) := settings (config (rm st)) in
  (∃ st', setEnabledModes modes st = Done tt st' ∧ persisted st'
          ∧ settings (config (rm st')) = (Join modes ",", s, t))
  ∧ (∃ st', setEnabledScripts scripts st = Done tt st' ∧ persisted st'
            ∧ settings (config (rm st')) = (m, Join scripts ",", t))
  ∧ (∃ st', setEnabledTheme theme st = Done tt st' ∧ persisted st'
            ∧ settings (config (rm st')) = (m, s, theme)).
Proof.
  intros persisted. subst persisted. cbv beta.
  unfold settings.
  assert (Hgen : ∀ sec v,
    (writable (fs st) (configPath (rm st)) →
     files (fs (saved (set_key sec "enabled" v st))) !! configPath (rm st)
     = Some (ini_render (config (rm (saved (set_key sec "enabled" v st))))))
    ∧ (¬ writable (fs st) (configPath (rm st)) →
       fs (saved (set_key sec "enabled" v st)) = fs st)
    ∧ calls (saved (set_key sec "enabled" v st)) = calls st
    ∧ answers (saved (set_key sec "enabled" v st)) = answers st).
  { intros sec v. repeat split.
    - intros Hw. apply (saved_files (set_key sec "enabled" v st)), Hw.
    - intros Hn. apply (saved_refused (set_key sec "enabled" v st)), Hn. }
  split; [|split]; eexists.
  - rewrite setEnabledModes_eq. split; [reflexivity|]. split; [apply Hgen|].
    cbn. rewrite ini_String_SetValue, !ini_String_SetValue_ne by done. reflexivity.
  - rewrite setEnabledScripts_eq. split; [reflexivity|]. split; [apply Hgen|].
    cbn. rewrite ini_String_SetValue, !ini_String_SetValue_ne by done. reflexivity.
  - rewrite setEnabledTheme_eq. split; [reflexivity|]. split; [apply Hgen|].
    cbn. rewrite ini_String_SetValue, !ini_String_SetValue_ne by done. reflexivity.
Qed.

(** ** Loading the configuration *)

Lemma ini_Load_file (w : World) (path data : string) :
  files w !! path = Some data → path ∉ denied w →
  ini_Load w path = ini_parse data.
Proof.
  intros Hf Hd. unfold ini_Load, ReadFile.
  rewrite decide_False by done. now rewrite Hf.
Qed.

(** X9.  [loadConfig] on a file the library parses takes the parsed
    configuration and leaves the file system as it is.  On a file the
    library rejects it takes the default configuration, and the text of the
    rejected file is replaced by the text of the defaults where the file can
    be written.  Nothing is shown in either case. *)
Theorem loadConfig_keeps_or_replaces (st : State) (data : string) :
  files (fs st) !! configPath (rm st) = Some data →
  configPath (rm st) ∉ denied (fs st) →
  ∃ st', loadConfig st = Done tt st'
    ∧ calls st' = calls st ∧ answers st' = answers st
    ∧ match ini_parse data with
      | Some cfg => config (rm st') = cfg ∧ fs st' = fs st
      | None =>
          config (rm st') = default_config
          ∧ (∀ p, p ≠ configPath (rm st) →
                  files (fs st') !! p = files (fs st) !! p)
          ∧ (writable (fs st) (configPath (rm st)) →
             files (fs st') !! configPath (rm st)
             = Some (ini_render default_config))
      end.
Proof.
  intros Hf Hd. rewrite loadConfig_eq, (ini_Load_file _ _ _ Hf Hd).
  destruct (ini_parse data) as [cfg|]; eexists; (split; [reflexivity|]).
  - repeat split.
  - split; [reflexivity|]. split; [reflexivity|]. split; [reflexivity|].
    cbn. unfold ini_SaveTo. split.
    + intros p Hp.
      destruct (WriteFile (fs st) (configPath (rm st)) (ini_render default_config))
        as [w' werr] eqn:Ew.
      exact (WriteFile_other _ _ _ _ _ _ Ew Hp).
    + intros Hw. rewrite WriteFile_writable by done.
      cbn. apply lookup_insert_eq.
Qed.

Lemma files_MkdirAll (w : World) (dir : string) :
  files (MkdirAll w dir) = files w ∧ denied (MkdirAll w dir) = denied w
  ∧ dirs w ⊆ dirs (MkdirAll w dir)
  ∧ dirs (MkdirAll w dir) ⊆ {[dir]} ∪ dirs w
  ∧ ((dir ∉ denied w) → (dir ∉ readonly w) → files w !! dir = None →
     dir ∈ dirs (MkdirAll w dir)).
Proof.
  unfold MkdirAll.
  destruct (decide (dir ∈ denied w ∨ dir ∈ readonly w)) as [Hr|Hr].
  { repeat split; try set_solver. }
  destruct (decide (is_Some (files w !! dir))) as [Hf|Hf].
  { repeat split; try set_solver. intros _ _ E. rewrite E in Hf. now destruct Hf. }
  cbn. repeat split; set_solver.
Qed.


(** X11.  [NewRofiManager] with a configuration file that the library
    parses takes the parsed configuration and writes no file: every file,
    the configuration file included, is as it was.  No answer is read and
    nothing is shown. *)
Theorem NewRofiManager_loads_existing (home : string) (w : World)
    (outs : list string) (data : string) (cfg : IniFile) :
  files w !! configPath (new_manager home) = Some data →
  configPath (new_manager home) ∉ denied w →
  ini_parse data = Some cfg →
  ∃ st, NewRofiManager home w outs = Done tt st
    ∧ rm st = manager home cfg
    ∧ files (fs st) = files w
    ∧ answers st = outs ∧ calls st = [].
Proof.
  intros Hf Hd Hp. unfold NewRofiManager, mbind, M_bind, bind.
  rewrite ensureConfigDirs_eq. cbv beta iota zeta. cbn [rm fs with_fs].
  set (w2 := MkdirAll (MkdirAll w (themesDir (new_manager home)))
                      (scriptsDir (new_manager home))).
  destruct (files_MkdirAll w (themesDir (new_manager home))) as (Hf1 & Hd1 & _).
  destruct (files_MkdirAll (MkdirAll w (themesDir (new_manager home)))
              (scriptsDir (new_manager home))) as (Hf2 & Hd2 & _).
  fold w2 in Hf2, Hd2.
  assert (Hf' : files w2 !! configPath (new_manager home) = Some data)
    by now rewrite Hf2, Hf1.
  assert (Hd' : configPath (new_manager home) ∉ denied w2)
    by now rewrite Hd2, Hd1.
  assert (Hs : os_Stat w2 (configPath (new_manager home)) = StatOk).
  { unfold os_Stat. rewrite decide_False by done.
    rewrite decide_True; [done|]. left. rewrite Hf'. eauto. }
  rewrite Hs, loadConfig_eq. cbn [rm fs with_fs].
  rewrite (ini_Load_file _ _ _ Hf' Hd'), Hp.
  eexists. split; [reflexivity|]. cbn. repeat split. now rewrite Hf2, Hf1.
Qed.

(** ** The menus *)

(** X12.  [rofiMenu] runs [rofi] once, with the options joined by newlines
    on its standard input, and returns its output without the white space
    around it; an output of white space only, and the absence of one, is
    the empty choice.  The theme file is passed with [-theme] when the
    theme is named and found under the themes directory; an empty or a
    dangling theme is passed over.  The manager and the file system stay
    as they are. *)
Theorem rofiMenu_returns_trimmed_answer (prompt : string)
    (options : list string) (theme : string) (st : State) :
  let themePath := FJoin [themesDir (rm st); theme] in
  ∃ choice st' call,
    rofiMenu prompt options theme st = Done choice st'
    ∧ choice = TrimSpace (hd "" (answers st))
    ∧ trimmed choice
    ∧ (answers st = [] → choice = "")
    ∧ answers st' = tl (answers st)
    ∧ calls st' = calls st ++ [call]
    ∧ rofi_stdin call = Join options nl
    ∧ (theme ≠ "" → os_Stat (fs st) themePath = StatOk →
       rofi_args call = ["-dmenu"; "-p"; prompt; "-theme"; themePath])
    ∧ (theme = "" ∨ os_Stat (fs st) themePath ≠ StatOk →
       rofi_args call = ["-dmenu"; "-p"; prompt])
    ∧ rm st' = rm st ∧ fs st' = fs st.
Proof.
  intros themePath. eexists _, _, _. rewrite rofiMenu_eq.
  split; [reflexivity|]. split; [reflexivity|].
  split; [apply TrimSpace_idemp|].
  split; [intros E; unfold next_choice; rewrite E; apply TrimSpace_empty|].
  split; [reflexivity|]. split; [reflexivity|]. split; [reflexivity|].
  cbn. unfold theme_args. fold themePath.
  split; [|split; [|split; reflexivity]].
  - intros Hne Hs. rewrite decide_True by done. now rewrite Hs.
  - intros [-> | Hs]; [done|].
    destruct (decide (theme ≠ "")); [|done].
    now destruct (os_Stat (fs st) themePath).
Qed.
(** ** Adding scripts and themes *)


Lemma HasSuffix_nonempty (path suffix : string) :
  suffix ≠ "" → HasSuffix path suffix = true → path ≠ "".
Proof.
  intros Hs [p Hp]%HasSuffix_spec ->. apply (f_equal bytes) in Hp.
  rewrite bytes_app in Hp. destruct (bytes p), suffix; done.
Qed.






Lemma WriteFile_not_writable (w : World) (path data : string) :
  ¬ writable w path → ∃ err, WriteFile w path data = (w, Some err).
Proof.
  intros Hw. unfold WriteFile.
  destruct (decide (path ∈ denied w ∨ path ∈ readonly w)) as [|Hn]; [eauto|].
  destruct (decide (path ∈ dirs w)); [eauto|].
  destruct Hw. unfold writable. tauto.
Qed.

(** The failures of the copy, for either of the two directories. *)
Lemma add_asset_copy_fails (prompt suffix message : string)
    (dir : RofiManager → string) (st : State) :
  dir = scriptsDir ∨ dir = themesDir →
  let path := next_choice st in
  let dest := FJoin [dir (rm st); Base path] in
  let asks :=
    menu_call prompt [""] (persisted_theme st) st
    :: match os_Stat (fs st) dest with
       | StatOk => [menu_call ("Overwrite " +:+ Base path +:+ "?")
                              ["No"; "Yes"] (persisted_theme st) st]
       | _ => []
       end in
  path ≠ "" → os_Stat (fs st) path ≠ StatNotExist →
  HasSuffix path suffix = true →
  (os_Stat (fs st) dest = StatOk →
   TrimSpace (hd "" (tl (answers st))) = "Yes") →
  (∀ err, ReadFile (fs st) path = inr err →
     ∃ st', add_asset prompt suffix message dir st = Done tt st'
       ∧ fs st' = fs st
       ∧ calls st'
         = calls st ++ asks
           ++ [info_call ("Error copying file:" +:+ nl +:+ err) st])
  ∧ (∀ input, ReadFile (fs st) path = inl input → ¬ writable (fs st) dest →
     ∃ err st', add_asset prompt suffix message dir st = Done tt st'
       ∧ WriteFile (fs st) dest input = (fs st, Some err)
       ∧ fs st' = fs st
       ∧ calls st'
         = calls st ++ asks
           ++ [info_call ("Error copying file:" +:+ nl +:+ err) st]).
Proof.
  intros Hdir path dest asks Hne Hstat Hsh Hyes. subst path dest asks.
  unfold add_asset. split.
  - intros err Hread.
    destruct Hdir as [-> | ->]; mstep;
      change (next_choice (touch "theme" "enabled" st)) with (next_choice st);
      rewrite decide_False by done; cbn; rewrite Hsh; cbn;
      (destruct (os_Stat (fs st) (next_choice st)); [|done|]);
      match goal with
      | |- context [os_Stat (fs st) ?d] => destruct (os_Stat (fs st) d) eqn:Ed
      end; mstep; rewrite ?Hread; cbn;
      try (match goal with
           | |- context [bool_decide (?a = "Yes")] =>
               change a with (TrimSpace (hd "" (tl (answers st))))
           end;
           rewrite (Hyes eq_refl), bool_decide_eq_true_2 by done;
           cbn; rewrite Hread; cbn);
      mstep; (eexists; split; [reflexivity|]);
      unfold info_call, menu_call, persisted_theme; cbn;
      rewrite ?settings_Key, ?ini_String_Key, <- ?app_assoc; now split.
  - intros input Hread Hw.
    destruct (WriteFile_not_writable _ _ input Hw) as [err Hwrite].
    exists err.
    destruct Hdir as [-> | ->]; mstep;
      change (next_choice (touch "theme" "enabled" st)) with (next_choice st);
      rewrite decide_False by done; cbn; rewrite Hsh; cbn;
      (destruct (os_Stat (fs st) (next_choice st)); [|done|]);
      match goal with
      | |- context [os_Stat (fs st) ?d] => destruct (os_Stat (fs st) d) eqn:Ed
      end; mstep; rewrite ?Hread; cbn;
      try (match goal with
           | |- context [bool_decide (?a = "Yes")] =>
               change a with (TrimSpace (hd "" (tl (answers st))))
           end;
           rewrite (Hyes eq_refl), bool_decide_eq_true_2 by done;
           cbn; rewrite Hread; cbn);
      rewrite Hwrite; mstep; (eexists; split; [reflexivity|]);
      (split; [reflexivity|]);
      unfold info_call, menu_call, persisted_theme; cbn;
      rewrite ?settings_Key, ?ini_String_Key, <- ?app_assoc;
      (split; [now destruct (fs st)|]); reflexivity.
Qed.

(** X15.  A copy that fails is reported and changes nothing.  After the
    checks of the path (and the consent to overwrite, where it is asked),
    a source that cannot be read (a directory, a path the system refuses)
    and a destination that cannot be written both end [addScript] and
    [addTheme] with the message "Error copying file:", a line break and the
    text of the error; the file system is as before. *)
Theorem failed_copies_are_reported (st : State) :
  let path := next_choice st in
  let reports (suffix prompt : string) (dir : string) (add : M unit) :=
    let dest := FJoin [dir; Base path] in
    let asks :=
      menu_call prompt [""] (persisted_theme st) st
      :: match os_Stat (fs st) dest with
         | StatOk => [menu_call ("Overwrite " +:+ Base path +:+ "?")
                                ["No"; "Yes"] (persisted_theme st) st]
         | _ => []
         end in
    path ≠ "" → os_Stat (fs st) path ≠ StatNotExist →
    HasSuffix path suffix = true →
    (os_Stat (fs st) dest = StatOk →
     TrimSpace (hd "" (tl (answers st))) = "Yes") →
    (∀ err, ReadFile (fs st) path = inr err →
       ∃ st', add st = Done tt st'
         ∧ fs st' = fs st
         ∧ calls st'
           = calls st ++ asks
             ++ [info_call ("Error copying file:" +:+ nl +:+ err) st])
    ∧ (∀ input, ReadFile (fs st) path = inl input → ¬ writable (fs st) dest →
       ∃ err st', add st = Done tt st'
         ∧ WriteFile (fs st) dest input = (fs st, Some err)
         ∧ fs st' = fs st
         ∧ calls st'
           = calls st ++ asks
             ++ [info_call ("Error copying file:" +:+ nl +:+ err) st]) in
  reports ".sh" "Path to script (.sh)" (scriptsDir (rm st)) addScript
  ∧ reports ".rasi" "Path to theme (.rasi)" (themesDir (rm st)) addTheme.
Proof.
  intros path reports. subst path reports. cbv beta zeta. split.
  - apply (add_asset_copy_fails _ ".sh" "File must end with .sh" scriptsDir st
             (or_introl eq_refl)).
  - apply (add_asset_copy_fails _ ".rasi" "File must end with .rasi" themesDir
             st (or_intror eq_refl)).
Qed.


(** ** The toggle loops *)

Lemma slice_from_None (s : string) (n : nat) :
  len s < n → slice_from n s = None.
Proof.
  intros Hn. with_strategy transparent [slice_from] unfold slice_from.
  destruct (Nat.leb_spec n (len s)); [lia | reflexivity].
Qed.

Lemma loaded_nonempty (l : list string) : l ≠ [] → length l ≠ 0.
Proof. now destruct l. Qed.

(** X16.  A toggle menu that is dismissed at once changes nothing: when the
    first answer is empty (or white space only), [toggleModes],
    [enableScript] and [enableTheme] return after the one menu, whose
    entries are the names with the marks of the enabled ones; no file is
    written and the settings are as they were. *)
Theorem dismissed_menus_change_nothing (st : State) :
  next_choice st = "" →
  let unchanged (st' : State) (call : RofiCall) :=
    fs st' = fs st
    ∧ settings (config (rm st')) = settings (config (rm st))
    ∧ calls st' = calls st ++ [call] in
  (∃ st', toggleModes st = Done tt st'
     ∧ unchanged st'
         (menu_call "Toggle modes (Enter to finish)"
            (toggle_options (allModes (rm st))
                            (list_to_set (persisted_modes st)))
            (persisted_theme st) st))
  ∧ (∀ scripts, value (loadScripts st) = Some scripts → scripts ≠ [] →
     ∃ st', enableScript st = Done tt st'
       ∧ unchanged st'
           (menu_call "Toggle scripts (Enter to finish)"
              (toggle_options scripts (list_to_set (persisted_scripts st)))
              (persisted_theme st) st))
  ∧ (∀ themes, value (loadThemes st) = Some themes → themes ≠ [] →
     ∃ st', enableTheme st = Done tt st'
       ∧ unchanged st'
           (menu_call "Select theme (Enter to escape)"
              (theme_options themes (persisted_theme st))
              (persisted_theme st) st)).
Proof.
  intros Hempty unchanged. subst unchanged. cbv beta. split; [|split].
  - unfold toggleModes, enough_fuel. mstep.
    rewrite toggle_loop_S, toggleModes_body_eq. cbv zeta.
    rewrite decide_True by exact Hempty.
    eexists. split; [reflexivity|].
    unfold menu_call, persisted_theme, persisted_modes; cbn.
    rewrite ?settings_Key, ?ini_String_Key. repeat split.
  - intros scripts. unfold loadScripts, enableScript, enough_fuel. mstep.
    intros [= E] Hne. unfold loadScripts. mstep. rewrite E.
    rewrite decide_False by now apply loaded_nonempty. mstep.
    rewrite toggle_loop_S, enableScript_body_eq. cbv zeta.
    rewrite decide_True by exact Hempty.
    eexists. split; [reflexivity|].
    unfold menu_call, persisted_theme, persisted_scripts; cbn.
    rewrite ?settings_Key, ?ini_String_Key. repeat split.
  - intros themes. unfold loadThemes, enableTheme, enough_fuel. mstep.
    intros [= E] Hne. unfold loadThemes. mstep. rewrite E.
    rewrite decide_False by now apply loaded_nonempty. mstep.
    rewrite enableTheme_loop_S, enableTheme_body_eq. cbv zeta.
    rewrite decide_True by exact Hempty.
    eexists. split; [reflexivity|].
    unfold menu_call, persisted_theme; cbn.
    rewrite ?settings_Key, ?ini_String_Key. repeat split.
Qed.

(** X17.  An answer of one to three bytes stops the program: the slice
    [choice[4:]] is out of range, so [toggleModes], [enableScript] and
    [enableTheme] panic on such a first answer, after the menu and before
    any write; the files and the settings are as they were. *)
Theorem short_choice_panics (st : State) :
  next_choice st ≠ "" → len (next_choice st) < 4 →
  let untouched (st' : State) :=
    fs st' = fs st
    ∧ settings (config (rm st')) = settings (config (rm st))
    ∧ length (calls st') = S (length (calls st)) in
  (∃ st', toggleModes st = Panic st' ∧ untouched st')
  ∧ (∀ scripts, value (loadScripts st) = Some scripts → scripts ≠ [] →
     ∃ st', enableScript st = Panic st' ∧ untouched st')
  ∧ (∀ themes, value (loadThemes st) = Some themes → themes ≠ [] →
     ∃ st', enableTheme st = Panic st' ∧ untouched st').
Proof.
  intros Hne Hshort%slice_from_None untouched. subst untouched. cbv beta.
  split; [|split].
  - unfold toggleModes, enough_fuel. mstep.
    rewrite toggle_loop_S, toggleModes_body_eq. cbv zeta.
    change (next_choice (touch "modes" "enabled" st)) with (next_choice st).
    rewrite decide_False by exact Hne. rewrite Hshort.
    eexists. split; [reflexivity|]. cbn.
    rewrite ?settings_Key, length_app. cbn. repeat split. lia.
  - intros scripts. unfold loadScripts, enableScript, enough_fuel. mstep.
    intros [= E] Hl. unfold loadScripts. mstep. rewrite E.
    rewrite decide_False by now apply loaded_nonempty. mstep.
    rewrite toggle_loop_S, enableScript_body_eq. cbv zeta.
    change (next_choice (touch "scripts" "enabled" st)) with (next_choice st).
    rewrite decide_False by exact Hne. rewrite Hshort.
    eexists. split; [reflexivity|]. cbn.
    rewrite ?settings_Key, length_app. cbn. repeat split. lia.
  - intros themes. unfold loadThemes, enableTheme, enough_fuel. mstep.
    intros [= E] Hl. unfold loadThemes. mstep. rewrite E.
    rewrite decide_False by now apply loaded_nonempty. mstep.
    rewrite enableTheme_loop_S, enableTheme_body_eq. cbv zeta.
    change (next_choice (touch "theme" "enabled" st)) with (next_choice st).
    rewrite decide_False by exact Hne. rewrite Hshort.
    eexists. split; [reflexivity|]. cbn.
    rewrite ?settings_Key, length_app. cbn. repeat split. lia.
Qed.








(** ** The listings of scripts and themes *)

Lemma app_str_assoc (a b c : string) : (a +:+ b) +:+ c = a +:+ b +:+ c.
Proof. apply bytes_inj. now rewrite !bytes_app, app_assoc. Qed.

Lemma substring_prefix (p t : string) : substring 0 (len p) (p +:+ t) = p.
Proof.
  unfold len. induction p as [|c p IH]; simpl; [now destruct t|].
  now rewrite IH.
Qed.

Lemma substring_none (s : string) (n : nat) : substring n 0 s = "".
Proof. revert n. induction s as [|c s IH]; intros [|n]; simpl; auto. Qed.

(** The paths [entry_name] takes for entries of [dir]. *)
Lemma entry_name_Some (dir path name : string) :
  entry_name dir path = Some name
  ↔ path = dir +:+ "/" +:+ name ∧ name ≠ "" ∧ lacks slash name.
Proof.
  unfold entry_name. cbv zeta. split.
  - destruct (String.prefix (dir +:+ "/") path) eqn:Hp; [|done].
    apply prefix_correct in Hp. fold (len (dir +:+ "/")) in Hp.
    set (rest := substring (len (dir +:+ "/")) (len path - len (dir +:+ "/"))
                           path).
    destruct (String.eqb_spec rest "") as [|Hne]; [done|]. cbn.
    destruct (lacksb slash rest) eqn:Hl; [|done].
    intros [= <-]. split; [|split; [exact Hne | now apply lacksb_lacks]].
    assert (Hlen : len (dir +:+ "/") ≤ len path).
    { destruct (le_lt_dec (len (dir +:+ "/")) (len path)) as [|Hlt]; [done|].
      exfalso. apply Hne. subst rest.
      replace (len path - len (dir +:+ "/")) with 0 by lia.
      apply substring_none. }
    pose proof (substring_split path _ Hlen) as E. rewrite Hp in E.
    rewrite <- app_str_assoc. exact E.
  - intros (-> & Hne & Hl). rewrite <- (app_str_assoc dir "/" name).
    assert (Hp : String.prefix (dir +:+ "/") ((dir +:+ "/") +:+ name) = true).
    { apply prefix_correct. apply substring_prefix. }
    rewrite Hp, (len_app (dir +:+ "/") name).
    replace (len (dir +:+ "/") + len name - len (dir +:+ "/"))
      with (len name) by lia.
    rewrite substring_skip, substring_all.
    destruct (String.eqb_spec name "") as [|_]; [done|]. cbn.
    apply lacksb_lacks in Hl. now rewrite Hl.
Qed.

Lemma elem_of_ReadDir (w : World) (dir name : string) :
  name ∈ ReadDir w dir
  ↔ (dir ∉ denied w) ∧ dir ∈ dirs w ∧ name ≠ "" ∧ lacks slash name
    ∧ (is_Some (files w !! (dir +:+ "/" +:+ name))
       ∨ dir +:+ "/" +:+ name ∈ dirs w).
Proof.
  unfold ReadDir.
  destruct (decide (dir ∈ denied w)) as [Hd|Hd].
  { split; [now intros ?%elem_of_nil | tauto]. }
  destruct (decide (dir ∈ dirs w)) as [Hdir|Hdir].
  2: { split; [now intros ?%elem_of_nil | tauto]. }
  rewrite merge_sort_Permutation, list_elem_of_omap. split.
  - intros (path & Hin & (-> & Hne & Hl)%entry_name_Some).
    repeat split; try done.
    apply elem_of_app in Hin as [Hin|Hin].
    + left. apply list_elem_of_fmap in Hin as ([p d] & -> & Hpd).
      apply elem_of_map_to_list in Hpd. cbn. eauto.
    + right. now apply elem_of_elements in Hin.
  - intros (_ & _ & Hne & Hl & Hin).
    exists (dir +:+ "/" +:+ name). split; [|now apply entry_name_Some].
    apply elem_of_app. destruct Hin as [[d Hd']|Hin].
    + left. apply list_elem_of_fmap. exists (dir +:+ "/" +:+ name, d).
      split; [done|]. now apply elem_of_map_to_list.
    + right. now apply elem_of_elements.
Qed.

Lemma StronglySorted_filter {A} (R : relation A) (P : A → Prop)
    `{∀ x, Decision (P x)} (l : list A) :
  StronglySorted R l → StronglySorted R (filter P l).
Proof.
  induction 1 as [|x l _ IH Hx]; [constructor|].
  destruct (decide (P x)).
  - rewrite filter_cons_True by done. constructor; [exact IH|].
    apply Forall_forall. intros y [_ Hy]%list_elem_of_filter.
    rewrite Forall_forall in Hx. now apply Hx.
  - now rewrite filter_cons_False.
Qed.

Lemma ReadDir_StronglySorted (w : World) (dir : string) :
  StronglySorted String.le (ReadDir w dir).
Proof.
  unfold ReadDir. repeat case_decide; try constructor.
  apply StronglySorted_merge_sort; apply _.
Qed.

(** X20.  [loadScripts] lists the names of the entries, files and
    directories alike, that lie directly in the scripts directory and end
    in [.sh], each as often as [ReadDir] reports it and in the sorted
    order of [ReadDir]; [loadThemes] does the same for the themes
    directory and [.rasi].  A directory that is missing or cannot be read
    gives the empty listing.  The state is not changed. *)
Theorem listings_filter_the_directory (st : State) :
  let lists (dir suffix : string) (names : list string) :=
    StronglySorted String.le names
    ∧ ∀ name,
        name ∈ names
        ↔ HasSuffix name suffix = true
          ∧ (dir ∉ denied (fs st)) ∧ dir ∈ dirs (fs st)
          ∧ lacks slash name
          ∧ (is_Some (files (fs st) !! (dir +:+ "/" +:+ name))
             ∨ dir +:+ "/" +:+ name ∈ dirs (fs st)) in
  ∃ scripts themes,
    loadScripts st = Done scripts st
    ∧ loadThemes st = Done themes st
    ∧ lists (scriptsDir (rm st)) ".sh" scripts
    ∧ lists (themesDir (rm st)) ".rasi" themes.
Proof.
  intros lists. subst lists. cbv beta.
  eexists _, _. split; [reflexivity|]. split; [reflexivity|].
  split; (split; [apply StronglySorted_filter, ReadDir_StronglySorted|]).
  - intros name. rewrite list_elem_of_filter, elem_of_ReadDir. split.
    + tauto.
    + intros (Hs & ? & ? & ? & ?). repeat split; try done.
      now apply (HasSuffix_nonempty name ".sh").
  - intros name. rewrite list_elem_of_filter, elem_of_ReadDir. split.
    + tauto.
    + intros (Hs & ? & ? & ? & ?). repeat split; try done.
      now apply (HasSuffix_nonempty name ".rasi").
Qed.


(** ** What the toggle workflows leave alone *)

Lemma keeps_others_refl (sec : string) (st : State) : keeps_others sec st st.
Proof. repeat split. Qed.

Lemma keeps_others_trans (sec : string) (st1 st2 st3 : State) :
  keeps_others sec st1 st2 → keeps_others sec st2 st3 →
  keeps_others sec st1 st3.
Proof.
  intros (Hp & Hk & Hd & Hf) (Hp' & Hk' & Hd' & Hf').
  assert (Hc : configPath (rm st2) = configPath (rm st1)) by congruence.
  split; [congruence|]. split; [|split; [congruence|]].
  - intros sec' Hne. now rewrite Hk', Hk.
  - intros p Hne. rewrite Hf', Hf; [done..|]. now rewrite Hc.
Qed.

Lemma keeps_others_menu (sec key : string) (c : RofiCall) (st : State) :
  keeps_others sec st (after_menu c (touch key "enabled" st)).
Proof.
  repeat split. intros sec' _. cbn. apply ini_String_Key.
Qed.

Lemma dirs_WriteFile (w : World) (path data : string) :
  dirs (fst (WriteFile w path data)) = dirs w.
Proof. unfold WriteFile. repeat case_decide; reflexivity. Qed.

Lemma keeps_others_saved (sec v : string) (st : State) :
  keeps_others sec st (saved (set_key sec "enabled" v st)).
Proof.
  split; [reflexivity|]. split; [|split].
  - intros sec' Hne. cbn. apply ini_String_SetValue_ne. congruence.
  - apply dirs_WriteFile.
  - intros p Hp. unfold saved, ini_SaveTo. cbn.
    destruct (WriteFile (fs st) (configPath (rm st))
                (ini_render (ini_SetValue (config (rm st)) sec "enabled" v)))
      as [w werr] eqn:Ew.
    exact (WriteFile_other _ _ _ _ _ _ Ew Hp).
Qed.

(** The loop of [toggleModes] and [enableScript], however it ends. *)
Lemma toggle_loop_keeps (prompt sec : string) (names : list string) :
  ∀ fuel S st st',
    final (toggle_loop fuel
             (toggle_body prompt names
                (fun l => key_SetValue sec "enabled" (Join l ",");; saveConfig))
             S st) = Some st' →
    keeps_others sec st st'.
Proof.
  induction fuel as [|fuel IH]; intros S st st'; [done|].
  rewrite toggle_loop_S, toggle_body_eq. cbv zeta.
  destruct (decide (next_choice st = "")).
  { intros [= <-]. apply keeps_others_menu. }
  destruct (slice_from 4 (next_choice st)) as [rest|].
  2: { intros [= <-]. apply keeps_others_menu. }
  intros Hl%IH. refine (keeps_others_trans _ _ _ _ _ Hl).
  match goal with
  | |- keeps_others _ _ (saved (set_key _ _ ?v ?a)) =>
      refine (keeps_others_trans _ _ a _ _ (keeps_others_saved sec v a))
  end.
  repeat split. intros sec' _. cbn. apply ini_String_Key.
Qed.

(** The loop of [enableTheme], however it ends. *)
Lemma enableTheme_loop_keeps (themes : list string) :
  ∀ fuel enabledTheme st st',
    final (enableTheme_loop fuel themes enabledTheme st) = Some st' →
    keeps_others "theme" st st'.
Proof.
  induction fuel as [|fuel IH]; intros enabledTheme st st'; [done|].
  rewrite enableTheme_loop_S, enableTheme_body_eq. cbv zeta.
  destruct (decide (next_choice st = "")).
  { intros [= <-]. repeat split. }
  destruct (slice_from 4 (next_choice st)) as [rest|].
  2: { intros [= <-]. repeat split. }
  intros Hl%IH. refine (keeps_others_trans _ _ _ _ _ Hl).
  match goal with
  | |- keeps_others _ _ (saved (set_key _ _ ?v ?a)) =>
      refine (keeps_others_trans _ _ a _ _ (keeps_others_saved "theme" v a))
  end.
  repeat split.
Qed.

(** X21.  A toggle workflow works on its own setting and on the
    configuration file, and on nothing else.  However [toggleModes] ends
    (returning or with a panic), the enabled scripts and the enabled theme
    of the configuration, the paths of the manager, the directories and
    every file but the configuration file are as before; [enableScript]
    leaves the modes and the theme alone in the same way, and [enableTheme]
    the modes and the scripts. *)
Theorem toggles_keep_other_settings (st st' : State) :
  (final (toggleModes st) = Some st' → keeps_others "modes" st st')
  ∧ (final (enableScript st) = Some st' → keeps_others "scripts" st st')
  ∧ (final (enableTheme st) = Some st' → keeps_others "theme" st st').
Proof.
  split; [|split].
  - unfold toggleModes, enough_fuel. mstep. intros Hl.
    apply toggle_loop_keeps in Hl.
    refine (keeps_others_trans _ _ _ _ _ Hl). repeat split.
    intros sec' _. cbn. apply ini_String_Key.
  - unfold enableScript, loadScripts, enough_fuel. mstep.
    match goal with |- context [decide (?P)] => destruct (decide P) end; mstep.
    + intros [= <-]. apply keeps_others_menu.
    + intros Hl. apply toggle_loop_keeps in Hl.
      refine (keeps_others_trans _ _ _ _ _ Hl). repeat split.
      intros sec' _. cbn. apply ini_String_Key.
  - unfold enableTheme, loadThemes, enough_fuel. mstep.
    match goal with |- context [decide (?P)] => destruct (decide P) end; mstep.
    + intros [= <-]. apply keeps_others_menu.
    + intros Hl. apply enableTheme_loop_keeps in Hl.
      refine (keeps_others_trans _ _ _ _ _ Hl). repeat split.
      intros sec' _. cbn. apply ini_String_Key.
Qed.


(** ** A copied file in the listing *)





End MoreProperties.


(** * The further properties on concrete runs *)

Section MoreRuns.

Import ReferenceIni Examples.

Lemma workflows_without_assets_witness :
  let st := fresh [] in
  (∃ st', enableScript st = Done tt st'
          ∧ calls st' = calls st ++ [info_call "No scripts found." st]
          ∧ answers st' = tl (answers st)
          ∧ fs st' = fs st
          ∧ settings (config (rm st')) = settings (config (rm st)))
  ∧ (∃ st', enableTheme st = Done tt st'
            ∧ calls st' = calls st ++ [info_call "No themes found." st]
            ∧ answers st' = tl (answers st)
            ∧ fs st' = fs st
            ∧ settings (config (rm st')) = settings (config (rm st))).
Proof.
  intros st. destruct (workflows_without_assets st) as [Hs Ht].
  split; [apply Hs | apply Ht]; vm_compute; reflexivity.
Defined.

Lemma selectMode_without_modes_witness :
  let st := set_key "modes" "enabled" " , " (fresh []) in
  ∃ st', selectMode st = Done tt st'
         ∧ calls st' = calls st ++ [info_call "No modes enabled." st]
         ∧ fs st' = fs st
         ∧ settings (config (rm st')) = settings (config (rm st)).
Proof.
  intros st. apply (selectMode_without_modes st). vm_compute. reflexivity.
Defined.

Lemma selectMode_launches_choice_witness :
  let st := fresh ["drun"] in
  ∃ st', selectMode st = Exited st'
         ∧ calls st'
           = calls st
             ++ [menu_call "Select mode" ["run"; "drun"; "window"] "" st;
                 {| rofi_args := ["-show"; "drun"]; rofi_stdin := "" |}]
         ∧ fs st' = fs st
         ∧ settings (config (rm st')) = settings (config (rm st)).
Proof.
  intros st.
  assert (Hne : persisted_modes st ≠ []) by (vm_compute; discriminate).
  destruct (selectMode_launches_choice st Hne) as [Hin _].
  apply Hin. vm_compute. apply list_elem_of_further, list_elem_of_here.
Defined.

Lemma run_dispatches_witness :
  let st := fresh ["Add Theme"; ""; "Exit"] in
  ∃ st1, run st = (addTheme;; run) st1 ∧ answers st1 = [""; "Exit"].
Proof.
  intros st. eexists. split.
  - apply (run_dispatches st). vm_compute. reflexivity.
  - reflexivity.
Defined.

Lemma setters_update_memory_then_file_witness :
  let st := fresh [] in
  ∃ st', setEnabledTheme "dark.rasi" st = Done tt st'
         ∧ files (fs st') !! configPath (rm st)
           = Some (ini_render (config (rm st')))
         ∧ settings (config (rm st')) = ("run,drun,window", "", "dark.rasi").
Proof.
  intros st.
  destruct (setters_update_memory_then_file st [] [] "dark.rasi")
    as (_ & _ & st' & Hrun & (Hfile & _) & Hset).
  exists st'. split; [exact Hrun|]. split; [|exact Hset].
  apply Hfile. repeat split; vm_compute; discriminate.
Defined.

Lemma loadConfig_keeps_or_replaces_witness :
  let st := fresh [] in
  ∃ st', loadConfig st = Done tt st'
         ∧ calls st' = calls st ∧ answers st' = answers st
         ∧ settings (config (rm st')) = ("run,drun,window", "", "")
         ∧ fs st' = fs st.
Proof.
  intros st.
  assert (Hf : files (fs st) !! configPath (rm st)
               = Some (ini_render default_config)) by (vm_compute; reflexivity).
  assert (Hd : configPath (rm st) ∉ denied (fs st))
    by (vm_compute; discriminate).
  destruct (loadConfig_keeps_or_replaces st _ Hf Hd) as (st' & Hrun & Hc & Ha & Hp).
  exists st'. split; [exact Hrun|]. split; [exact Hc|]. split; [exact Ha|].
  assert (Hparse : ini_parse (ini_render default_config) = Some default_config)
    by (vm_compute; reflexivity).
  rewrite Hparse in Hp. destruct Hp as [-> ->].
  split; [vm_compute|]; reflexivity.
Defined.

Lemma NewRofiManager_loads_existing_witness :
  let cfg := ini_SetValue default_config "theme" "enabled" "dark.rasi" in
  let w := {| files := {[configPath (new_manager home) := ini_render cfg]};
              dirs := ∅; denied := ∅; readonly := ∅ |} in
  ∃ st, NewRofiManager home w ["Exit"] = Done tt st
        ∧ rm st = manager home cfg
        ∧ files (fs st) = files w
        ∧ answers st = ["Exit"] ∧ calls st = [].
Proof.
  intros cfg w.
  apply (NewRofiManager_loads_existing home w ["Exit"] (ini_render cfg) cfg).
  - vm_compute. reflexivity.
  - vm_compute. discriminate.
  - vm_compute. reflexivity.
Defined.



Lemma failed_copies_are_reported_witness :
  let st := with_fs {| files := ∅; dirs := {["/tmp/d.sh"]};
                       denied := ∅; readonly := ∅ |}
                    (fresh ["/tmp/d.sh"]) in
  ∃ st', addScript st = Done tt st'
         ∧ fs st' = fs st
         ∧ calls st'
           = calls st
             ++ [menu_call "Path to script (.sh)" [""] "" st;
                 info_call ("Error copying file:" +:+ nl
                            +:+ "read /tmp/d.sh: is a directory") st].
Proof.
  intros st.
  pose proof (failed_copies_are_reported st) as Hc. cbv beta zeta in Hc.
  destruct Hc as [Hs _].
  destruct Hs as [Hread _].
  - vm_compute. discriminate.
  - vm_compute. discriminate.
  - vm_compute. reflexivity.
  - intros E. vm_compute in E. discriminate.
  - destruct (Hread "read /tmp/d.sh: is a directory") as (st' & Hrun & Hfs & Hcalls).
    + vm_compute. reflexivity.
    + exists st'. split; [exact Hrun|]. split; [exact Hfs|].
      rewrite Hcalls. vm_compute. reflexivity.
Defined.

Lemma dismissed_menus_change_nothing_witness :
  let st := fresh [" "] in
  ∃ st', toggleModes st = Done tt st'
         ∧ fs st' = fs st
         ∧ settings (config (rm st')) = settings (config (rm st))
         ∧ calls st'
           = calls st
             ++ [menu_call "Toggle modes (Enter to finish)"
                   ["[x] run"; "[x] drun"; "[x] window"; "[ ] ssh";
                    "[ ] filebrowser"; "[ ] key"] "" st].
Proof.
  intros st.
  assert (Hempty : next_choice st = "") by (vm_compute; reflexivity).
  pose proof (dismissed_menus_change_nothing st Hempty) as Hc.
  cbv beta zeta in Hc. destruct Hc as [(st' & Hrun & Hfs & Hset & Hcalls) _].
  exists st'. split; [exact Hrun|]. split; [exact Hfs|]. split; [exact Hset|].
  rewrite Hcalls. vm_compute. reflexivity.
Defined.

Lemma short_choice_panics_witness :
  let st := fresh ["[x]"] in
  ∃ st', toggleModes st = Panic st'
         ∧ fs st' = fs st
         ∧ settings (config (rm st')) = settings (config (rm st))
         ∧ length (calls st') = S (length (calls st)).
Proof.
  intros st.
  assert (Hne : next_choice st ≠ "") by (vm_compute; discriminate).
  assert (Hshort : len (next_choice st) < 4) by (vm_compute; lia).
  pose proof (short_choice_panics st Hne Hshort) as Hc.
  cbv beta zeta in Hc. exact (proj1 Hc).
Defined.


Lemma toggles_keep_other_settings_witness :
  let st := fresh ["[ ] ssh"; "ab"] in
  ∃ st', final (toggleModes st) = Some st' ∧ keeps_others "modes" st st'.
Proof.
  intros st. destruct (final (toggleModes st)) as [st'|] eqn:E.
  - exists st'. split; [reflexivity|].
    apply (toggles_keep_other_settings st st'). exact E.
  - vm_compute in E. discriminate.
Defined.



End MoreRuns.
